(** * elasticsearch_exporter: the Collect cycle of the Exporter

    A shallow embedding of [elasticsearch_exporter.go]: the metric
    tables, [NewExporter], and one [Collect] cycle (reset, fetch, decode,
    remap, report), followed by the properties of that cycle.

    Conventions of the embedding.
    - A Go [map] owned by the exporter ([e.gauges], [e.counters], the
      children of a metric vector) is a [gmap]; lookups of absent keys are
      [None], where Go yields a nil pointer whose use panics.  A [range]
      over such a map is [map_to_list]: one of the orders Go may pick, so
      nothing is stated about the order within one map.
    - A Go [map] of the decoded payload ([Nodes], [Collectors],
      [Breakers]) is the list of its entries in the order in which the
      [range] statement of this cycle visits them.  Go leaves that order
      unspecified, so it is an input of the cycle.
    - [float64(x)] of an [int64] field is kept as the integer [x]: the
      sample value is the conversion of that integer.  Two values are only
      said to differ when both integers are exact in float64
      ([float64_exact]).
    - The channel [ch] is the list of metrics sent on it, [log.Println] the
      list of lines printed; the mutex is not modelled (one cycle at a
      time). *)

From Stdlib Require Import ZArith.
From stdpp Require Import base option list strings gmap fin_maps.

Open Scope string_scope.

(** ** The metrics library, as far as the exporter uses it *)

Inductive Kind := Gauge | Counter.

#[global] Instance Kind_eq_dec : EqDecision Kind.
Proof. solve_decision. Defined.

(** [prometheus.GaugeOpts] / [prometheus.CounterOpts]. *)
Record Opts := {
  Namespace : string;
  Name : string;
  Help : string;
}.

(** The descriptor of an instrument: its kind, options and variable
    label names, in the order given at construction. *)
Record Desc := {
  kind : Kind;
  opts : Opts;
  labelNames : list string;
}.

(** [*prometheus.GaugeVec] / [*prometheus.CounterVec]: a descriptor and one
    child per combination of label values seen since the last [Reset]. *)
Record Vec := {
  desc : Desc;
  children : gmap (list string) Z;
}.

(** [prometheus.Gauge] (the unlabelled instrument behind [up]). *)
Record PlainGauge := {
  gauge_desc : Desc;
  gauge_value : Z;
}.

(** A [prometheus.Metric] as sent on the channel: one series. *)
Record Metric := {
  metric_desc : Desc;
  labelValues : list string;
  value : Z;
}.

(** The label pairs of a series: names zipped with values, in order. *)
Definition labelPairs (m : Metric) : list (string * string) :=
  zip (labelNames (metric_desc m)) (labelValues m).

Definition NewGaugeVec (o : Opts) (labels : list string) : Vec :=
  {| desc := {| kind := Gauge; opts := o; labelNames := labels |};
     children := ∅ |}.

Definition NewCounterVec (o : Opts) (labels : list string) : Vec :=
  {| desc := {| kind := Counter; opts := o; labelNames := labels |};
     children := ∅ |}.

Definition NewGauge (o : Opts) : PlainGauge :=
  {| gauge_desc := {| kind := Gauge; opts := o; labelNames := [] |};
     gauge_value := 0 |}.

(** [vec.Reset()]: every child is deleted. *)
Definition Vec_Reset (v : Vec) : Vec :=
  {| desc := desc v; children := ∅ |}.

(** [vec.WithLabelValues(lvs...).Set(x)]: panics ([None]) when the number
    of label values differs from the number of label names; otherwise the
    child for [lvs] is created if needed and set to [x]. *)
Definition Vec_Set (lvs : list string) (x : Z) (v : Vec) : option Vec :=
  if decide (length lvs = length (labelNames (desc v)))
  then Some {| desc := desc v; children := <[lvs := x]> (children v) |}
  else None.

(** [vec.Collect(ch)]: one metric per child. *)
Definition Vec_Collect (v : Vec) : list Metric :=
  (λ c, {| metric_desc := desc v; labelValues := c.1; value := c.2 |})
    <$> map_to_list (children v).

Definition Gauge_Set (x : Z) (g : PlainGauge) : PlainGauge :=
  {| gauge_desc := gauge_desc g; gauge_value := x |}.

(** [ch <- gauge]. *)
Definition Gauge_Metric (g : PlainGauge) : Metric :=
  {| metric_desc := gauge_desc g; labelValues := []; value := gauge_value g |}.

(** ** The metric tables *)

Definition namespace : string := "elasticsearch".

Record VecInfo := {
  help : string;
  labels : list string;
}.

Definition gaugeMetrics : list (string * string) := [
  ("indices_fielddata_memory_size_bytes", "Field data cache memory usage in bytes");
  ("indices_filter_cache_memory_size_bytes", "Field data cache memory usage in bytes");
  ("indices_docs", "Count of documents on this node");
  ("indices_docs_deleted", "Count of deleted documents on this node");
  ("indices_store_size_bytes", "Current size of stored index data in bytes");
  ("indices_segments_memory_bytes", "Current memory size of segments in bytes");
  ("jvm_mem_heap_committed_bytes", "JVM heap memory currently committed");
  ("jvm_mem_heap_used_bytes", "JVM heap memory currently used");
  ("jvm_mem_heap_max_bytes", "JVM heap memory max");
  ("jvm_mem_non_heap_committed_bytes", "JVM non-heap memory currently committed");
  ("jvm_mem_non_heap_used_bytes", "JVM non-heap memory currently used")
].

Definition counterMetrics : list (string * string) := [
  ("indices_fielddata_evictions", "Evictions from field data");
  ("indices_filter_cache_evictions", "Evictions from field data");
  ("indices_flush_total", "Total flushes");
  ("indices_flush_time_ms_total", "Cumulative flush time in milliseconds");
  ("transport_rx_packets_total", "Count of packets received");
  ("transport_rx_size_bytes_total", "Total number of bytes received");
  ("transport_tx_packets_total", "Count of packets sent");
  ("transport_tx_size_bytes_total", "Total number of bytes sent");
  ("indices_store_throttle_time_ms_total", "Throttle time for index store in milliseconds");
  ("indices_indexing_index_total", "Total index calls");
  ("indices_indexing_index_time_ms_total", "Cumulative index time in milliseconds");
  ("indices_merges_total", "Total merges");
  ("indices_merges_total_docs_total", "Cumulative docs merged");
  ("indices_merges_total_size_bytes_total", "Total merge size in bytes");
  ("indices_merges_total_time_ms_total", "Total time spent merging in milliseconds")
].

Definition counterVecMetrics : list (string * VecInfo) := [
  ("jvm_gc_collections",
   {| help := "Count of JVM GC runs"; labels := ["collector"] |});
  ("jvm_gc_collections_time_ms",
   {| help := "GC run time in milliseconds"; labels := ["collector"] |})
].

Definition gaugeVecMetrics : list (string * VecInfo) := [
  ("breakers_estimated_size_bytes",
   {| help := "Estimated size in bytes of breaker"; labels := ["breaker"] |});
  ("breakers_limit_size_bytes",
   {| help := "Limit size in bytes for breaker"; labels := ["breaker"] |})
].

(** ** The exporter *)

Record Exporter := {
  URI : string;
  up : PlainGauge;
  gauges : gmap string Vec;
  counters : gmap string Vec;
  client_timeout : Z;
}.

(** [for name, x := range table { m[name] = mk name x }]. *)
Definition range_insert {A} (mk : string → A → Vec)
    (table : list (string * A)) (m : gmap string Vec) : gmap string Vec :=
  foldl (λ acc entry, <[entry.1 := mk entry.1 entry.2]> acc) m table.

Definition NewExporter (uri : string) (timeout : Z) : Exporter :=
  let counters := (∅ : gmap string Vec) in
  let gauges := (∅ : gmap string Vec) in
  let counters :=
    range_insert (λ name info,
      NewCounterVec {| Namespace := namespace; Name := name; Help := help info |}
                    (["cluster"] ++ labels info)) counterVecMetrics counters in
  let gauges :=
    range_insert (λ name info,
      NewGaugeVec {| Namespace := namespace; Name := name; Help := help info |}
                  (["cluster"] ++ labels info)) gaugeVecMetrics gauges in
  let counters :=
    range_insert (λ name help,
      NewCounterVec {| Namespace := namespace; Name := name; Help := help |}
                    ["cluster"]) counterMetrics counters in
  let gauges :=
    range_insert (λ name help,
      NewGaugeVec {| Namespace := namespace; Name := name; Help := help |}
                  ["cluster"]) gaugeMetrics gauges in
  {| URI := uri;
     up := NewGauge {| Namespace := namespace; Name := "up";
                       Help := "Was the Elasticsearch instance query successful?" |};
     counters := counters;
     gauges := gauges;
     client_timeout := timeout |}.

(** ** The decoded payload *)

(** Modelled from the spec: the struct declarations behind
    [NodeStatsResponse] are not in the source file.  The records follow the
    data model of the spec, with the field names [Collect] reads; every
    numeric field is an [int64]. *)
Record GCCollectorStats := {
  CollectionCount : Z;
  CollectionTime : Z;
}.

Record BreakerStats := {
  EstimatedSize : Z;
  LimitSize : Z;
}.

Record MemStats := {
  HeapCommitted : Z;
  HeapUsed : Z;
  HeapMax : Z;
  NonHeapCommitted : Z;
  NonHeapUsed : Z;
}.

Record GCStats := {
  Collectors : list (string * GCCollectorStats);
}.

Record JVMStats := {
  Mem : MemStats;
  GC : GCStats;
}.

Record CacheStats := {
  MemorySize : Z;
  Evictions : Z;
}.

Record DocsStats := {
  Count : Z;
  Deleted : Z;
}.

Record SegmentsStats := {
  Memory : Z;
}.

Record StoreStats := {
  Size : Z;
  ThrottleTime : Z;
}.

Record FlushStats := {
  Flush_Total : Z;
  Flush_Time : Z;
}.

Record IndexingStats := {
  IndexTotal : Z;
  IndexTime : Z;
}.

Record MergesStats := {
  Merges_Total : Z;
  Merges_TotalDocs : Z;
  Merges_TotalSize : Z;
  Merges_TotalTime : Z;
}.

Record IndicesStats := {
  FieldData : CacheStats;
  FilterCache : CacheStats;
  Docs : DocsStats;
  Segments : SegmentsStats;
  Store : StoreStats;
  Flush : FlushStats;
  Indexing : IndexingStats;
  Merges : MergesStats;
}.

Record TransportStats := {
  RxCount : Z;
  RxSize : Z;
  TxCount : Z;
  TxSize : Z;
}.

Record NodeStats := {
  JVM : JVMStats;
  Breakers : list (string * BreakerStats);
  Indices : IndicesStats;
  Transport : TransportStats;
}.

Record NodeStatsResponse := {
  ClusterName : string;
  Nodes : list (string * NodeStats);
}.

(** What the three external calls of a cycle come back with:
    [e.client.Get] fails, [ioutil.ReadAll] fails, [json.Unmarshal] fails,
    or the body decodes to [allStats]. *)
Inductive Upstream :=
  | GetError
  | ReadError
  | UnmarshalError
  | Decoded (allStats : NodeStatsResponse).

(** The lines [Collect] prints with [log.Println]; the error value itself
    is left out. *)
Inductive LogLine :=
  | LogQueryError
  | LogReadError
  | LogUnmarshalError
  | LogUnexpectedNodes (l : nat).

(** ** Collect *)

(** One statement
    [e.<table>[key].WithLabelValues(lvs...).Set(float64(x))]. *)
Record SetCall := {
  call_table : Kind;
  call_key : string;
  call_lvs : list string;
  call_value : Z;
}.

Definition gauge_set (key : string) (lvs : list string) (x : Z) : SetCall :=
  {| call_table := Gauge; call_key := key; call_lvs := lvs; call_value := x |}.

Definition counter_set (key : string) (lvs : list string) (x : Z) : SetCall :=
  {| call_table := Counter; call_key := key; call_lvs := lvs; call_value := x |}.

(** The body of [for _, stats := range allStats.Nodes], statement by
    statement. *)
Definition gc_calls (cluster : string) (stats : NodeStats) : list SetCall :=
  flat_map (λ entry,
    let collector := entry.1 in
    let gcstats := entry.2 in
    [ counter_set "jvm_gc_collections" [cluster; collector] (CollectionCount gcstats);
      counter_set "jvm_gc_collections_time_ms" [cluster; collector] (CollectionTime gcstats) ])
    (Collectors (GC (JVM stats))).

Definition breaker_calls (cluster : string) (stats : NodeStats) : list SetCall :=
  flat_map (λ entry,
    let breaker := entry.1 in
    let bstats := entry.2 in
    [ gauge_set "breakers_estimated_size_bytes" [cluster; breaker] (EstimatedSize bstats);
      gauge_set "breakers_limit_size_bytes" [cluster; breaker] (LimitSize bstats) ])
    (Breakers stats).

Definition scalar_calls (cluster : string) (stats : NodeStats) : list SetCall := [
  (* JVM Memory Stats *)
  gauge_set "jvm_mem_heap_committed_bytes" [cluster] (HeapCommitted (Mem (JVM stats)));
  gauge_set "jvm_mem_heap_used_bytes" [cluster] (HeapUsed (Mem (JVM stats)));
  gauge_set "jvm_mem_heap_max_bytes" [cluster] (HeapMax (Mem (JVM stats)));
  gauge_set "jvm_mem_non_heap_committed_bytes" [cluster] (NonHeapCommitted (Mem (JVM stats)));
  gauge_set "jvm_mem_non_heap_used_bytes" [cluster] (NonHeapUsed (Mem (JVM stats)));
  (* Indices Stats *)
  gauge_set "indices_fielddata_memory_size_bytes" [cluster] (MemorySize (FieldData (Indices stats)));
  gauge_set "indices_filter_cache_memory_size_bytes" [cluster] (MemorySize (FilterCache (Indices stats)));
  counter_set "indices_filter_cache_evictions" [cluster] (Evictions (FilterCache (Indices stats)));
  counter_set "indices_fielddata_evictions" [cluster] (Evictions (FieldData (Indices stats)));
  gauge_set "indices_docs" [cluster] (Count (Docs (Indices stats)));
  gauge_set "indices_docs_deleted" [cluster] (Deleted (Docs (Indices stats)));
  gauge_set "indices_segments_memory_bytes" [cluster] (Memory (Segments (Indices stats)));
  gauge_set "indices_store_size_bytes" [cluster] (Size (Store (Indices stats)));
  counter_set "indices_store_throttle_time_ms_total" [cluster] (ThrottleTime (Store (Indices stats)));
  counter_set "indices_flush_total" [cluster] (Flush_Total (Flush (Indices stats)));
  counter_set "indices_flush_time_ms_total" [cluster] (Flush_Time (Flush (Indices stats)));
  counter_set "indices_indexing_index_time_ms_total" [cluster] (IndexTime (Indexing (Indices stats)));
  counter_set "indices_indexing_index_total" [cluster] (IndexTotal (Indexing (Indices stats)));
  counter_set "indices_merges_total_time_ms_total" [cluster] (Merges_TotalTime (Merges (Indices stats)));
  counter_set "indices_merges_total_size_bytes_total" [cluster] (Merges_TotalSize (Merges (Indices stats)));
  counter_set "indices_merges_total" [cluster] (Merges_Total (Merges (Indices stats)));
  (* Transport Stats *)
  counter_set "transport_rx_packets_total" [cluster] (RxCount (Transport stats));
  counter_set "transport_rx_size_bytes_total" [cluster] (RxSize (Transport stats));
  counter_set "transport_tx_packets_total" [cluster] (TxCount (Transport stats));
  counter_set "transport_tx_size_bytes_total" [cluster] (TxSize (Transport stats))
].

Definition node_calls (cluster : string) (stats : NodeStats) : list SetCall :=
  gc_calls cluster stats ++ breaker_calls cluster stats ++ scalar_calls cluster stats.

(** All the statements of the remapping loop, in execution order. *)
Definition remap_calls (allStats : NodeStatsResponse) : list SetCall :=
  flat_map (λ node, node_calls (ClusterName allStats) node.2) (Nodes allStats).

Definition table_of (k : Kind) (e : Exporter) : gmap string Vec :=
  match k with
  | Gauge => gauges e
  | Counter => counters e
  end.

Definition with_table (k : Kind) (m : gmap string Vec) (e : Exporter) : Exporter :=
  match k with
  | Gauge =>
      {| URI := URI e; up := up e; gauges := m; counters := counters e;
         client_timeout := client_timeout e |}
  | Counter =>
      {| URI := URI e; up := up e; gauges := gauges e; counters := m;
         client_timeout := client_timeout e |}
  end.

(** Runs one statement.  [None] is a panic: the key is not in the table
    (nil instrument), or the label values do not fit the instrument. *)
Definition apply_call (c : SetCall) (e : Exporter) : option Exporter :=
  vec ← table_of (call_table c) e !! call_key c;
  vec' ← Vec_Set (call_lvs c) (call_value c) vec;
  Some (with_table (call_table c)
          (<[call_key c := vec']> (table_of (call_table c) e)) e).

Fixpoint apply_calls (cs : list SetCall) (e : Exporter) : option Exporter :=
  match cs with
  | [] => Some e
  | c :: cs => e' ← apply_call c e; apply_calls cs e'
  end.

(** [// Reset metrics.] *)
Definition reset (e : Exporter) : Exporter :=
  {| URI := URI e; up := up e;
     gauges := Vec_Reset <$> gauges e;
     counters := Vec_Reset <$> counters e;
     client_timeout := client_timeout e |}.

Definition up_Set (x : Z) (e : Exporter) : Exporter :=
  {| URI := URI e; up := Gauge_Set x (up e);
     gauges := gauges e; counters := counters e;
     client_timeout := client_timeout e |}.

(** [// Report metrics.]: what is sent on [ch], in order. *)
Definition report (e : Exporter) : list Metric :=
  Gauge_Metric (up e)
    :: flat_map (λ entry, Vec_Collect entry.2) (map_to_list (counters e))
    ++ flat_map (λ entry, Vec_Collect entry.2) (map_to_list (gauges e)).

(** What a cycle that returns leaves behind: the exporter, the metrics
    sent on [ch], and the lines logged. *)
Record Outcome := {
  exporter : Exporter;
  sent : list Metric;
  logged : list LogLine;
}.

(** [func (e *Exporter) Collect(ch chan<- prometheus.Metric)], given what
    the upstream answers in this cycle.  [None] is a panic. *)
Definition Collect (r : Upstream) (e : Exporter) : option Outcome :=
  let e := reset e in
  match r with
  | GetError =>
      let e := up_Set 0 e in
      Some {| exporter := e; sent := []; logged := [LogQueryError] |}
  | ReadError =>
      let e := up_Set 0 e in
      Some {| exporter := e; sent := []; logged := [LogReadError] |}
  | UnmarshalError =>
      let e := up_Set 1 e in
      Some {| exporter := e; sent := []; logged := [LogUnmarshalError] |}
  | Decoded allStats =>
      let e := up_Set 1 e in
      let l := length (Nodes allStats) in
      let warning := if decide (l ≠ 1) then [LogUnexpectedNodes l] else [] in
      e ← apply_calls (remap_calls allStats) e;
      Some {| exporter := e; sent := report e; logged := warning |}
  end.

(** The value of the series [lvs] of instrument [key], if it exists. *)
Definition series (k : Kind) (name : string) (lvs : list string)
    (e : Exporter) : option Z :=
  vec ← table_of k e !! name; children vec !! lvs.

(** The exporter has the instruments [NewExporter] built. *)
Definition initialised (e : Exporter) : Prop :=
  desc <$> gauges e = desc <$> gauges (NewExporter (URI e) (client_timeout e))
  ∧ desc <$> counters e = desc <$> counters (NewExporter (URI e) (client_timeout e))
  ∧ gauge_desc (up e) = gauge_desc (up (NewExporter (URI e) (client_timeout e))).

(** The value the statements [cs], run in order, leave in the series
    [lvs] of instrument [name] of table [k], starting from [init]. *)
Fixpoint final_value (k : Kind) (name : string) (lvs : list string)
    (cs : list SetCall) (init : option Z) : option Z :=
  match cs with
  | [] => init
  | c :: cs =>
      final_value k name lvs cs
        (if decide (call_table c = k ∧ call_key c = name ∧ call_lvs c = lvs)
         then Some (call_value c) else init)
  end.

(** The label names [NewExporter] gives instrument [name] of table [k]. *)
Definition registered_labels (k : Kind) (name : string) : option (list string) :=
  (labelNames ∘ desc) <$> table_of k (NewExporter "" 0) !! name.

(** The instruments of [e] are those [NewExporter] builds (the tables of
    [NewExporter] do not depend on its arguments). *)
Definition schema_ok (e : Exporter) : Prop :=
  ∀ k, desc <$> table_of k e = desc <$> table_of k (NewExporter "" 0).

(** A statement fits the instruments of [NewExporter]: its key is
    registered, with as many label names as the statement gives values. *)
Definition call_fits (c : SetCall) : Prop :=
  ∃ ls, registered_labels (call_table c) (call_key c) = Some ls
        ∧ length (call_lvs c) = length ls.

(** The table a scalar metric of kind [k] is declared in. *)
Definition scalar_table (k : Kind) : list (string * string) :=
  match k with
  | Gauge => gaugeMetrics
  | Counter => counterMetrics
  end.

(** The three sorts of statement in the body of the loop over the nodes:
    per GC collector, per breaker, and per node. *)
Inductive call_shape (cluster : string) (stats : NodeStats) (c : SetCall) : Prop :=
  | shape_gc collector :
      collector ∈ (Collectors (GC (JVM stats))).*1 →
      call_table c = Counter →
      call_key c ∈ counterVecMetrics.*1 →
      registered_labels Counter (call_key c) = Some ["cluster"; "collector"] →
      call_lvs c = [cluster; collector] →
      call_shape cluster stats c
  | shape_breaker breaker :
      breaker ∈ (Breakers stats).*1 →
      call_table c = Gauge →
      call_key c ∈ gaugeVecMetrics.*1 →
      registered_labels Gauge (call_key c) = Some ["cluster"; "breaker"] →
      call_lvs c = [cluster; breaker] →
      call_shape cluster stats c
  | shape_scalar :
      c ∈ scalar_calls cluster stats →
      call_key c ∈ (scalar_table (call_table c)).*1 →
      registered_labels (call_table c) (call_key c) = Some ["cluster"] →
      call_lvs c = [cluster] →
      call_shape cluster stats c.

(** The label pairs of a series sent after [up]: the cluster first, then
    the breaker or the collector for the vector metrics. *)
Definition remapped_labels (allStats : NodeStatsResponse) (m : Metric) : Prop :=
  (Name (opts (metric_desc m)) ∈ (scalar_table (kind (metric_desc m))).*1
   ∧ labelPairs m = [("cluster", ClusterName allStats)])
  ∨ (∃ node breaker,
       node ∈ Nodes allStats ∧ breaker ∈ (Breakers node.2).*1
       ∧ kind (metric_desc m) = Gauge
       ∧ Name (opts (metric_desc m)) ∈ gaugeVecMetrics.*1
       ∧ labelPairs m = [("cluster", ClusterName allStats); ("breaker", breaker)])
  ∨ (∃ node collector,
       node ∈ Nodes allStats ∧ collector ∈ (Collectors (GC (JVM node.2))).*1
       ∧ kind (metric_desc m) = Counter
       ∧ Name (opts (metric_desc m)) ∈ counterVecMetrics.*1
       ∧ labelPairs m = [("cluster", ClusterName allStats); ("collector", collector)]).


(** ** Sample inputs *)

(** A node whose fields are all zero except the used heap, with the given
    GC collectors and breakers. *)
Definition node_stats (heapUsed : Z)
    (collectors : list (string * GCCollectorStats))
    (breakers : list (string * BreakerStats)) : NodeStats :=
  {| JVM := {| Mem := {| HeapCommitted := 0; HeapUsed := heapUsed; HeapMax := 0;
                         NonHeapCommitted := 0; NonHeapUsed := 0 |};
               GC := {| Collectors := collectors |} |};
     Breakers := breakers;
     Indices := {| FieldData := {| MemorySize := 0; Evictions := 0 |};
                   FilterCache := {| MemorySize := 0; Evictions := 0 |};
                   Docs := {| Count := 0; Deleted := 0 |};
                   Segments := {| Memory := 0 |};
                   Store := {| Size := 0; ThrottleTime := 0 |};
                   Flush := {| Flush_Total := 0; Flush_Time := 0 |};
                   Indexing := {| IndexTotal := 0; IndexTime := 0 |};
                   Merges := {| Merges_Total := 0; Merges_TotalDocs := 0;
                                Merges_TotalSize := 0; Merges_TotalTime := 0 |} |};
     Transport := {| RxCount := 0; RxSize := 0; TxCount := 0; TxSize := 0 |} |}.

(** The exporter [main] builds with the default flags (5 s, in ns). *)
Definition default_exporter : Exporter :=
  NewExporter "http://localhost:9200/_nodes/_local/stats" 5000000000.

(** One node of cluster [es-test], with one collector and one breaker. *)
Definition es_test : NodeStatsResponse :=
  {| ClusterName := "es-test";
     Nodes := [("node-1",
                node_stats 1048576
                  [("young", {| CollectionCount := 3; CollectionTime := 40 |})]
                  [("fielddata", {| EstimatedSize := 100; LimitSize := 1000 |})])] |}.

(** The same node after its [fielddata] breaker was replaced by [request]. *)
Definition es_test_later : NodeStatsResponse :=
  {| ClusterName := "es-test";
     Nodes := [("node-1",
                node_stats 1048576
                  [("young", {| CollectionCount := 4; CollectionTime := 50 |})]
                  [("request", {| EstimatedSize := 7; LimitSize := 1000 |})])] |}.

(** An answer with two nodes, which differ in their used heap. *)
Definition two_nodes : NodeStatsResponse :=
  {| ClusterName := "es-test";
     Nodes := [("node-1", node_stats 1 [] [("fielddata", {| EstimatedSize := 100; LimitSize := 1000 |})]);
               ("node-2", node_stats 2 [] [("request", {| EstimatedSize := 7; LimitSize := 1000 |})])] |}.

(** [two_nodes], with its nodes visited in the other order. *)
Definition two_nodes_reversed : NodeStatsResponse :=
  {| ClusterName := ClusterName two_nodes; Nodes := reverse (Nodes two_nodes) |}.

(** ** Describe, and runs of scrapes *)

(** [vec.Describe(ch)]: the descriptor of the vector. *)
Definition Vec_Describe (v : Vec) : list Desc := [desc v].

(** [func (e *Exporter) Describe(ch chan<- *prometheus.Desc)]: what is sent
    on [ch], in order. *)
Definition Describe (e : Exporter) : list Desc :=
  gauge_desc (up e)
    :: flat_map (λ entry, Vec_Describe entry.2) (map_to_list (counters e))
    ++ flat_map (λ entry, Vec_Describe entry.2) (map_to_list (gauges e)).

(** One [Collect] per answer of the upstream, each on the exporter the
    one before left; [None] as soon as one panics. *)
Fixpoint scrapes (rs : list Upstream) (e : Exporter) : option Exporter :=
  match rs with
  | [] => Some e
  | r :: rs => o ← Collect r e; scrapes rs (exporter o)
  end.

(** The flags of [main] that reach the exporter. *)
Record Flags := {
  esURI : string;
  esTimeout : Z;
}.

(** The exporter [main] registers: [NewExporter] on the flag [es.uri]
    followed by the path of the local node's stats, and on [es.timeout]. *)
Definition main_exporter (flags : Flags) : Exporter :=
  NewExporter (esURI flags ++ "/_nodes/_local/stats") (esTimeout flags).

(** ** The same payload, visited in another order *)

(** The integers that [float64] holds without rounding: distinct ones
    convert to distinct values. *)
Definition float64_exact (x : Z) : Prop := (- 2 ^ 53 ≤ x ≤ 2 ^ 53)%Z.







(** * Properties *)

(** ** The tables of [NewExporter] *)

Lemma range_insert_lookup {A} (mk : string → A → Vec) table m name vec :
  range_insert mk table m !! name = Some vec →
  m !! name = Some vec ∨ ∃ a, (name, a) ∈ table ∧ vec = mk name a.
Proof.
  unfold range_insert. revert m.
  induction table as [|[n a] table IH]; intros m; simpl; [by left|].
  intros [H|(a' & Hin & ->)]%IH.
  - destruct (decide (n = name)) as [->|Hne].
    + rewrite lookup_insert_eq in H. injection H as <-.
      right. exists a. split; [left|done].
    + rewrite lookup_insert_ne in H by done. by left.
  - right. exists a'. split; [by right|done].
Qed.

Lemma NewExporter_gauges uri timeout :
  gauges (NewExporter uri timeout) = gauges (NewExporter "" 0).
Proof. reflexivity. Qed.

Lemma NewExporter_counters uri timeout :
  counters (NewExporter uri timeout) = counters (NewExporter "" 0).
Proof. reflexivity. Qed.

Lemma NewExporter_table k uri timeout :
  table_of k (NewExporter uri timeout) = table_of k (NewExporter "" 0).
Proof. by destruct k. Qed.

Lemma NewExporter_kind k uri timeout name vec :
  table_of k (NewExporter uri timeout) !! name = Some vec → kind (desc vec) = k.
Proof.
  intros H. unfold NewExporter in H.
  destruct k; cbn [table_of gauges counters] in H.
  - apply range_insert_lookup in H as [H|(? & _ & ->)]; [|done].
    apply range_insert_lookup in H as [H|(? & _ & ->)]; [|done].
    by rewrite lookup_empty in H.
  - apply range_insert_lookup in H as [H|(? & _ & ->)]; [|done].
    apply range_insert_lookup in H as [H|(? & _ & ->)]; [|done].
    by rewrite lookup_empty in H.
Qed.

(** ** One statement of the remapping loop *)

Lemma table_of_with_table k k' m e :
  table_of k (with_table k' m e) = if decide (k = k') then m else table_of k e.
Proof. by destruct k, k'. Qed.

Lemma up_with_table k m e : up (with_table k m e) = up e.
Proof. by destruct k. Qed.

Lemma apply_call_inv c e e' :
  apply_call c e = Some e' →
  ∃ vec,
    table_of (call_table c) e !! call_key c = Some vec
    ∧ length (call_lvs c) = length (labelNames (desc vec))
    ∧ e' = with_table (call_table c)
             (<[call_key c :=
                  {| desc := desc vec;
                     children := <[call_lvs c := call_value c]> (children vec) |}]>
                (table_of (call_table c) e)) e.
Proof.
  unfold apply_call, Vec_Set. intros H.
  destruct (table_of (call_table c) e !! call_key c) as [vec|] eqn:Hvec;
    simpl in H; [|done].
  case_decide; simpl in H; [|done].
  injection H as <-. by exists vec.
Qed.

Lemma apply_call_Some c e vec :
  table_of (call_table c) e !! call_key c = Some vec →
  length (call_lvs c) = length (labelNames (desc vec)) →
  is_Some (apply_call c e).
Proof.
  intros Hvec Hlen. unfold apply_call, Vec_Set. rewrite Hvec. simpl.
  rewrite decide_True by done. simpl. eauto.
Qed.

Lemma apply_call_schema c e e' k :
  apply_call c e = Some e' →
  desc <$> table_of k e' = desc <$> table_of k e.
Proof.
  intros (vec & Hvec & _ & ->)%apply_call_inv.
  rewrite table_of_with_table. case_decide as Hk; [subst k|done].
  rewrite fmap_insert. apply insert_id. by rewrite lookup_fmap, Hvec.
Qed.

Lemma apply_call_up c e e' : apply_call c e = Some e' → up e' = up e.
Proof. intros (vec & _ & _ & ->)%apply_call_inv. apply up_with_table. Qed.

Lemma apply_call_series c e e' k name lvs :
  apply_call c e = Some e' →
  series k name lvs e' =
    if decide (call_table c = k ∧ call_key c = name ∧ call_lvs c = lvs)
    then Some (call_value c) else series k name lvs e.
Proof.
  intros (vec & Hvec & _ & ->)%apply_call_inv. unfold series.
  rewrite table_of_with_table.
  destruct (decide (k = call_table c)) as [->|Hk].
  - destruct (decide (call_key c = name)) as [<-|Hn].
    + rewrite lookup_insert_eq, Hvec. simpl.
      destruct (decide (call_lvs c = lvs)) as [<-|Hl].
      * rewrite lookup_insert_eq. by rewrite decide_True.
      * rewrite lookup_insert_ne by done. rewrite decide_False; [done|].
        by intros (_ & _ & ?).
    + rewrite lookup_insert_ne by done. rewrite decide_False; [done|].
      by intros (_ & ? & _).
  - rewrite decide_False; [done|]. by intros (? & _ & _).
Qed.

Lemma apply_call_reset c e e' : apply_call c e = Some e' → reset e' = reset e.
Proof.
  intros (vec & Hvec & _ & ->)%apply_call_inv. unfold reset.
  assert (Vec_Reset <$>
            <[call_key c := {| desc := desc vec;
                 children := <[call_lvs c := call_value c]> (children vec) |}]>
              (table_of (call_table c) e)
          = Vec_Reset <$> table_of (call_table c) e) as Heq.
  { rewrite fmap_insert. apply insert_id. by rewrite lookup_fmap, Hvec. }
  destruct (call_table c); simpl in *; by rewrite Heq.
Qed.

(** ** A run of statements *)

Lemma apply_calls_app cs1 cs2 e :
  apply_calls (cs1 ++ cs2) e = apply_calls cs1 e ≫= apply_calls cs2.
Proof.
  revert e. induction cs1 as [|c cs1 IH]; intros e; simpl; [done|].
  destruct (apply_call c e) as [e1|]; simpl; [apply IH|done].
Qed.

Lemma apply_calls_schema cs e e' k :
  apply_calls cs e = Some e' →
  desc <$> table_of k e' = desc <$> table_of k e.
Proof.
  revert e. induction cs as [|c cs IH]; intros e; simpl.
  - by intros [= ->].
  - destruct (apply_call c e) as [e1|] eqn:H1; simpl; [|done].
    intros H. rewrite (IH _ H). by eapply apply_call_schema.
Qed.

Lemma apply_calls_up cs e e' : apply_calls cs e = Some e' → up e' = up e.
Proof.
  revert e. induction cs as [|c cs IH]; intros e; simpl.
  - by intros [= ->].
  - destruct (apply_call c e) as [e1|] eqn:H1; simpl; [|done].
    intros H. rewrite (IH _ H). by eapply apply_call_up.
Qed.

Lemma apply_calls_reset cs e e' : apply_calls cs e = Some e' → reset e' = reset e.
Proof.
  revert e. induction cs as [|c cs IH]; intros e; simpl.
  - by intros [= ->].
  - destruct (apply_call c e) as [e1|] eqn:H1; simpl; [|done].
    intros H. rewrite (IH _ H). by eapply apply_call_reset.
Qed.

Lemma apply_calls_series cs e e' k name lvs :
  apply_calls cs e = Some e' →
  series k name lvs e' = final_value k name lvs cs (series k name lvs e).
Proof.
  revert e. induction cs as [|c cs IH]; intros e; simpl.
  - by intros [= ->].
  - destruct (apply_call c e) as [e1|] eqn:H1; simpl; [|done].
    intros H. rewrite (IH _ H). f_equal. by apply apply_call_series.
Qed.

Lemma final_value_app k name lvs cs1 cs2 init :
  final_value k name lvs (cs1 ++ cs2) init =
  final_value k name lvs cs2 (final_value k name lvs cs1 init).
Proof. revert init. induction cs1 as [|c cs1 IH]; intros init; simpl; auto. Qed.

Lemma final_value_Some k name lvs cs init v :
  final_value k name lvs cs init = Some v →
  init = Some v
  ∨ ∃ c, c ∈ cs ∧ call_table c = k ∧ call_key c = name ∧ call_lvs c = lvs
         ∧ call_value c = v.
Proof.
  revert init. induction cs as [|c cs IH]; intros init; simpl; [by left|].
  intros [H|(c' & Hin & H)]%IH.
  - case_decide as Hc; [|by left].
    destruct Hc as (Hk & Hn & Hl). injection H as <-.
    right. exists c. split; [left|done].
  - right. exists c'. by split; [right|].
Qed.

Lemma final_value_is_Some k name lvs cs init c :
  c ∈ cs → call_table c = k → call_key c = name → call_lvs c = lvs →
  is_Some (final_value k name lvs cs init).
Proof.
  revert init. induction cs as [|c' cs IH]; intros init Hin Hk Hn Hl.
  - by apply elem_of_nil in Hin.
  - simpl. apply elem_of_cons in Hin as [<-|Hin]; [|by apply IH].
    rewrite decide_True by done. clear.
    generalize (call_value c). intros v. revert v.
    induction cs as [|c' cs IH]; intros v; simpl; [by eexists|].
    case_decide; apply IH.
Qed.

(** When no two statements of [cs] name the same instrument, each leaves
    its own value. *)
Lemma final_value_NoDup cs init c :
  NoDup (call_key <$> cs) → c ∈ cs →
  final_value (call_table c) (call_key c) (call_lvs c) cs init
  = Some (call_value c).
Proof.
  revert init. induction cs as [|c' cs IH]; intros init Hnd Hin.
  - by apply elem_of_nil in Hin.
  - rewrite fmap_cons in Hnd. apply NoDup_cons in Hnd as [Hfresh Hnd]. simpl.
    apply elem_of_cons in Hin as [<-|Hin]; [|by apply IH].
    rewrite decide_True by done. clear IH Hnd.
    generalize (Some (call_value c)) as o.
    induction cs as [|c' cs IH]; intros o; simpl; [done|].
    rewrite fmap_cons in Hfresh. apply not_elem_of_cons in Hfresh as [Hne Hfresh].
    rewrite decide_False; [by apply IH|]. intros (_ & ? & _). congruence.
Qed.

(** ** The statements of the loop body *)

Lemma elem_of_flat_map {A B} (f : A → list B) (l : list A) (y : B) :
  y ∈ flat_map f l ↔ ∃ a, a ∈ l ∧ y ∈ f a.
Proof.
  rewrite list_elem_of_In, in_flat_map.
  split; intros (a & Ha & Hy); exists a.
  - by rewrite !list_elem_of_In.
  - by rewrite <- !list_elem_of_In.
Qed.

Ltac table_fact := apply (bool_decide_unpack _); vm_compute; exact I.

Ltac pick_elem :=
  simpl; repeat first [apply list_elem_of_here | apply list_elem_of_further].

Lemma scalar_calls_shape cluster stats :
  Forall (call_shape cluster stats) (scalar_calls cluster stats).
Proof.
  apply Forall_forall. intros c Hc. apply shape_scalar; [done|..];
    revert c Hc; apply Forall_forall; unfold scalar_calls;
    repeat (apply Forall_cons; split;
            [first [table_fact | vm_compute; reflexivity]|]);
    apply Forall_nil_2.
Qed.

Lemma gc_calls_shape cluster stats :
  Forall (call_shape cluster stats) (gc_calls cluster stats).
Proof.
  apply Forall_forall. intros c [[collector gcstats] [Hin Hc]]%elem_of_flat_map.
  simpl in Hc.
  assert (collector ∈ (Collectors (GC (JVM stats))).*1) as Hcol.
  { apply list_elem_of_fmap. by exists (collector, gcstats). }
  apply elem_of_cons in Hc as [->|Hc]; [|apply list_elem_of_singleton in Hc as ->];
    apply (shape_gc _ _ _ collector);
    first [assumption | table_fact | vm_compute; reflexivity].
Qed.

Lemma breaker_calls_shape cluster stats :
  Forall (call_shape cluster stats) (breaker_calls cluster stats).
Proof.
  apply Forall_forall. intros c [[breaker bstats] [Hin Hc]]%elem_of_flat_map.
  simpl in Hc.
  assert (breaker ∈ (Breakers stats).*1) as Hbr.
  { apply list_elem_of_fmap. by exists (breaker, bstats). }
  apply elem_of_cons in Hc as [->|Hc]; [|apply list_elem_of_singleton in Hc as ->];
    apply (shape_breaker _ _ _ breaker);
    first [assumption | table_fact | vm_compute; reflexivity].
Qed.

Lemma node_calls_shape cluster stats :
  Forall (call_shape cluster stats) (node_calls cluster stats).
Proof.
  unfold node_calls. rewrite !Forall_app.
  auto using gc_calls_shape, breaker_calls_shape, scalar_calls_shape.
Qed.

Lemma remap_calls_shape allStats c :
  c ∈ remap_calls allStats →
  ∃ node, node ∈ Nodes allStats ∧ c ∈ node_calls (ClusterName allStats) node.2
          ∧ call_shape (ClusterName allStats) node.2 c.
Proof.
  intros (node & Hnode & Hc)%elem_of_flat_map. exists node.
  split_and!; [done..|].
  by eapply Forall_forall; [apply node_calls_shape|].
Qed.

Lemma call_shape_fits cluster stats c : call_shape cluster stats c → call_fits c.
Proof.
  intros [collector _ Hk _ Hl Hv|breaker _ Hk _ Hl Hv|_ _ Hl Hv]; unfold call_fits.
  - exists ["cluster"; "collector"]. rewrite Hk, Hv. by split.
  - exists ["cluster"; "breaker"]. rewrite Hk, Hv. by split.
  - exists ["cluster"]. rewrite Hv. by split.
Qed.

Lemma remap_calls_fit allStats : Forall call_fits (remap_calls allStats).
Proof.
  apply Forall_forall. intros c (node & _ & _ & Hc)%remap_calls_shape.
  by eapply call_shape_fits.
Qed.

(** ** Instruments are never missing *)

Lemma initialised_schema_ok e : initialised e → schema_ok e.
Proof.
  intros (Hg & Hc & _) k.
  rewrite NewExporter_gauges in Hg. rewrite NewExporter_counters in Hc.
  by destruct k.
Qed.

Lemma schema_ok_lookup e k name ls :
  schema_ok e → registered_labels k name = Some ls →
  ∃ vec, table_of k e !! name = Some vec ∧ labelNames (desc vec) = ls.
Proof.
  intros Hok Hreg. unfold registered_labels in Hreg.
  destruct (table_of k (NewExporter "" 0) !! name) as [vec0|] eqn:H0;
    [|discriminate Hreg].
  injection Hreg as Hls.
  assert ((desc <$> table_of k e) !! name = Some (desc vec0)) as Hd.
  { by rewrite Hok, lookup_fmap, H0. }
  rewrite lookup_fmap in Hd.
  destruct (table_of k e !! name) as [vec|]; [|discriminate Hd].
  injection Hd as Hd. exists vec. by rewrite Hd.
Qed.

Lemma schema_ok_registered e k name vec :
  schema_ok e → table_of k e !! name = Some vec →
  registered_labels k name = Some (labelNames (desc vec))
  ∧ kind (desc vec) = k
  ∧ ∃ vec0, table_of k (NewExporter "" 0) !! name = Some vec0
            ∧ desc vec0 = desc vec.
Proof.
  intros Hok Hvec.
  assert ((desc <$> table_of k (NewExporter "" 0)) !! name = Some (desc vec)) as Hd.
  { by rewrite <- Hok, lookup_fmap, Hvec. }
  rewrite lookup_fmap in Hd. unfold registered_labels.
  destruct (table_of k (NewExporter "" 0) !! name) as [vec0|] eqn:H0;
    [|discriminate Hd].
  injection Hd as Hd. split_and!.
  - simpl. by rewrite Hd.
  - rewrite <- Hd. by eapply NewExporter_kind.
  - by exists vec0.
Qed.

Lemma apply_call_schema_ok c e e' :
  schema_ok e → apply_call c e = Some e' → schema_ok e'.
Proof. intros Hok H k. rewrite <- Hok. by eapply apply_call_schema. Qed.

Lemma apply_calls_schema_ok cs e e' :
  schema_ok e → apply_calls cs e = Some e' → schema_ok e'.
Proof. intros Hok H k. rewrite <- Hok. by eapply apply_calls_schema. Qed.

Lemma apply_calls_Some cs e :
  schema_ok e → Forall call_fits cs → is_Some (apply_calls cs e).
Proof.
  intros Hok Hfit. revert e Hok.
  induction Hfit as [|c cs (ls & Hreg & Hlen) _ IH]; intros e Hok; simpl; [by eexists|].
  destruct (schema_ok_lookup e _ _ _ Hok Hreg) as (vec & Hvec & Hls).
  destruct (apply_call_Some c e vec) as [e1 H1]; [done|by rewrite Hls|].
  rewrite H1. simpl. apply IH. by eapply apply_call_schema_ok.
Qed.

(** ** Reset and the liveness gauge *)

Lemma table_of_reset k e : table_of k (reset e) = Vec_Reset <$> table_of k e.
Proof. by destruct k. Qed.

Lemma table_of_up_Set k x e : table_of k (up_Set x e) = table_of k e.
Proof. by destruct k. Qed.

Lemma reset_schema_ok e : schema_ok e → schema_ok (reset e).
Proof.
  intros Hok k. rewrite <- Hok, table_of_reset, <- map_fmap_compose.
  by apply map_fmap_ext.
Qed.

Lemma up_Set_schema_ok x e : schema_ok e → schema_ok (up_Set x e).
Proof. intros Hok k. by rewrite table_of_up_Set. Qed.

Lemma series_reset k name lvs e : series k name lvs (reset e) = None.
Proof.
  unfold series. rewrite table_of_reset, lookup_fmap.
  by destruct (table_of k e !! name).
Qed.

Lemma series_up_Set k name lvs x e :
  series k name lvs (up_Set x e) = series k name lvs e.
Proof. unfold series. by rewrite table_of_up_Set. Qed.

Lemma reset_reset e : reset (reset e) = reset e.
Proof.
  unfold reset. simpl. f_equal; rewrite <- map_fmap_compose; by apply map_fmap_ext.
Qed.

Lemma reset_up_Set x e : reset (up_Set x e) = up_Set x (reset e).
Proof. done. Qed.

Lemma up_Set_up_Set x y e : up_Set x (up_Set y e) = up_Set x e.
Proof. done. Qed.

(** ** What is sent on the channel *)

Lemma elem_of_collect_table (tbl : gmap string Vec) (m : Metric) :
  m ∈ flat_map (λ entry, Vec_Collect entry.2) (map_to_list tbl)
  ↔ ∃ name vec lvs v,
      tbl !! name = Some vec ∧ children vec !! lvs = Some v
      ∧ m = {| metric_desc := desc vec; labelValues := lvs; value := v |}.
Proof.
  rewrite elem_of_flat_map. split.
  - intros ([name vec] & Hin & Hm). apply elem_of_map_to_list in Hin.
    unfold Vec_Collect in Hm. simpl in Hm.
    apply list_elem_of_fmap in Hm as ([lvs v] & -> & Hc).
    apply elem_of_map_to_list in Hc. by exists name, vec, lvs, v.
  - intros (name & vec & lvs & v & Hvec & Hc & ->).
    exists (name, vec). split; [by apply elem_of_map_to_list|].
    unfold Vec_Collect. simpl. apply list_elem_of_fmap.
    exists (lvs, v). split; [done|by apply elem_of_map_to_list].
Qed.


Lemma elem_of_report_tail e m :
  m ∈ (flat_map (λ entry, Vec_Collect entry.2) (map_to_list (counters e))
       ++ flat_map (λ entry, Vec_Collect entry.2) (map_to_list (gauges e)))%list
  ↔ ∃ k name vec lvs v,
      table_of k e !! name = Some vec ∧ series k name lvs e = Some v
      ∧ m = {| metric_desc := desc vec; labelValues := lvs; value := v |}.
Proof.
  rewrite elem_of_app, !elem_of_collect_table. split.
  - intros [(name & vec & lvs & v & Hvec & Hc & ->)
           |(name & vec & lvs & v & Hvec & Hc & ->)].
    + exists Counter, name, vec, lvs, v. unfold series. simpl. by rewrite Hvec.
    + exists Gauge, name, vec, lvs, v. unfold series. simpl. by rewrite Hvec.
  - intros (k & name & vec & lvs & v & Hvec & Hs & ->).
    unfold series in Hs. rewrite Hvec in Hs. simpl in Hs.
    destruct k; [right|left]; by exists name, vec, lvs, v.
Qed.

(** ** The cycle as a whole *)

Lemma Collect_Decoded allStats e :
  initialised e →
  ∃ e',
    apply_calls (remap_calls allStats) (up_Set 1 (reset e)) = Some e'
    ∧ Collect (Decoded allStats) e =
        Some {| exporter := e'; sent := report e';
                logged := if decide (length (Nodes allStats) ≠ 1)
                          then [LogUnexpectedNodes (length (Nodes allStats))]
                          else [] |}
    ∧ schema_ok e'
    ∧ up e' = Gauge_Set 1 (up e)
    ∧ ∀ k name lvs,
        series k name lvs e' = final_value k name lvs (remap_calls allStats) None.
Proof.
  intros Hinit%initialised_schema_ok.
  assert (schema_ok (up_Set 1 (reset e))) as Hok.
  { by apply up_Set_schema_ok, reset_schema_ok. }
  destruct (apply_calls_Some (remap_calls allStats) _ Hok (remap_calls_fit allStats))
    as [e' He'].
  exists e'. split_and!.
  - done.
  - unfold Collect. by rewrite He'.
  - by eapply apply_calls_schema_ok.
  - by rewrite (apply_calls_up _ _ _ He').
  - intros k name lvs. rewrite (apply_calls_series _ _ _ _ _ _ He').
    by rewrite series_up_Set, series_reset.
Qed.

Lemma initialised_intro e e' :
  initialised e → schema_ok e' → gauge_desc (up e') = gauge_desc (up e) →
  initialised e'.
Proof.
  intros (_ & _ & Hup) Hok Hup'. split_and!.
  - rewrite NewExporter_gauges. apply (Hok Gauge).
  - rewrite NewExporter_counters. apply (Hok Counter).
  - by rewrite Hup', Hup.
Qed.

Lemma Collect_initialised r e o :
  initialised e → Collect r e = Some o → initialised (exporter o).
Proof.
  intros Hinit H.
  assert (schema_ok (reset e)) as Hok
    by by apply reset_schema_ok, initialised_schema_ok.
  destruct r as [| | |allStats].
  - injection H as <-. by apply (initialised_intro e).
  - injection H as <-. by apply (initialised_intro e).
  - injection H as <-. by apply (initialised_intro e).
  - destruct (Collect_Decoded allStats e Hinit) as (e' & _ & H' & Hok' & Hup & _).
    rewrite H' in H. injection H as <-. simpl.
    apply (initialised_intro e); [done..|]. by rewrite Hup.
Qed.

(** ** Failed cycles *)




(** ** Successful cycles *)

Lemma Collect_after_reset r e e1 y :
  reset e1 = up_Set y (reset e) → Collect r e1 = Collect r e.
Proof.
  intros Hreset. unfold Collect. rewrite Hreset.
  destruct r; by rewrite up_Set_up_Set.
Qed.

Lemma Collect_leaves_reset r e o :
  Collect r e = Some o → ∃ y, reset (exporter o) = up_Set y (reset e).
Proof.
  unfold Collect. destruct r as [| | |allStats].
  - intros [= <-]. exists 0%Z. simpl. by rewrite reset_up_Set, reset_reset.
  - intros [= <-]. exists 0%Z. simpl. by rewrite reset_up_Set, reset_reset.
  - intros [= <-]. exists 1%Z. simpl. by rewrite reset_up_Set, reset_reset.
  - destruct (apply_calls _ _) as [e'|] eqn:He'; simpl; [|done].
    intros [= <-]. exists 1%Z. simpl.
    by rewrite (apply_calls_reset _ _ _ He'), reset_up_Set, reset_reset.
Qed.

(** Two cycles in a row against the same answer of the upstream, visited in
    the same order, end in the same outcome.  Nothing accumulates: the cycle
    starts by clearing every instrument, so a cycle run after another does
    what it would have done in its place. *)
Theorem Collect_twice_same (e : Exporter) (r : Upstream) :
  initialised e →
  ∃ o, Collect r e = Some o
       ∧ Collect r (exporter o) = Some o
       ∧ ∀ r', Collect r' (exporter o) = Collect r' e.
Proof.
  intros Hinit.
  assert (∃ o, Collect r e = Some o) as [o Ho].
  { destruct r as [| | |allStats]; [by eexists..|].
    destruct (Collect_Decoded allStats e Hinit) as (e' & _ & H & _). by eexists. }
  destruct (Collect_leaves_reset r e o Ho) as [y Hy].
  exists o. split; [done|]. split.
  - by rewrite (Collect_after_reset r e (exporter o) y Hy).
  - intros r'. by apply (Collect_after_reset r' e (exporter o) y).
Qed.


(** C9.  Every key the remapping loop looks up in [e.gauges] or
    [e.counters] was put there by [NewExporter], and at the moment a
    statement runs its lookup finds an instrument: the statements before it
    have all run, and the table still holds the key. *)
Theorem remap_keys_registered (e : Exporter) (allStats : NodeStatsResponse)
    (before : list SetCall) (c : SetCall) (after : list SetCall) :
  initialised e →
  remap_calls allStats = (before ++ c :: after)%list →
  is_Some (table_of (call_table c) (NewExporter (URI e) (client_timeout e))
             !! call_key c)
  ∧ ∃ e1, apply_calls before (up_Set 1 (reset e)) = Some e1
          ∧ is_Some (table_of (call_table c) e1 !! call_key c).
Proof.
  intros Hinit%initialised_schema_ok Hsplit.
  assert (schema_ok (up_Set 1 (reset e))) as Hok.
  { by apply up_Set_schema_ok, reset_schema_ok. }
  pose proof (remap_calls_fit allStats) as Hfit. rewrite Hsplit in Hfit.
  apply Forall_app in Hfit as [Hbefore Hc].
  apply Forall_cons in Hc as [(ls & Hreg & _) _].
  split.
  - rewrite NewExporter_table. unfold registered_labels in Hreg.
    destruct (table_of (call_table c) (NewExporter "" 0) !! call_key c);
      [by eexists|discriminate Hreg].
  - destruct (apply_calls_Some before _ Hok Hbefore) as [e1 He1].
    exists e1. split; [done|].
    destruct (schema_ok_lookup e1 _ _ _ (apply_calls_schema_ok _ _ _ Hok He1) Hreg)
      as (vec & Hvec & _).
    by exists vec.
Qed.

Lemma Collect_twice_same_witness :
  initialised default_exporter
  ∧ ∃ o, Collect (Decoded es_test) default_exporter = Some o
         ∧ Collect (Decoded es_test) (exporter o) = Some o
         ∧ ∀ r', Collect r' (exporter o) = Collect r' default_exporter.
Proof.
  split; [|apply Collect_twice_same]; repeat split; reflexivity.
Defined.


Lemma remap_keys_registered_witness :
  let c := gauge_set "jvm_mem_heap_used_bytes" ["es-test"] 1048576 in
  let before := take 5 (remap_calls es_test) in
  let after := drop 6 (remap_calls es_test) in
  initialised default_exporter
  ∧ remap_calls es_test = (before ++ c :: after)%list
  ∧ is_Some (gauges default_exporter !! "jvm_mem_heap_used_bytes")
  ∧ ∃ e1, apply_calls before (up_Set 1 (reset default_exporter)) = Some e1
          ∧ is_Some (gauges e1 !! "jvm_mem_heap_used_bytes").
Proof.
  intros c before after.
  assert (initialised default_exporter) as Hinit by (repeat split; reflexivity).
  assert (remap_calls es_test = (before ++ c :: after)%list) as Hsplit
    by (vm_compute; reflexivity).
  split; [exact Hinit|]. split; [exact Hsplit|].
  exact (remap_keys_registered default_exporter es_test before c after Hinit Hsplit).
Defined.

(** ** More than one node, or none *)

Lemma scalar_calls_lvs cluster stats c :
  c ∈ scalar_calls cluster stats → call_lvs c = [cluster].
Proof.
  revert c. apply Forall_forall. unfold scalar_calls.
  repeat (apply Forall_cons; split; [reflexivity|]). apply Forall_nil_2.
Qed.

Lemma scalar_calls_NoDup cluster stats :
  NoDup (call_key <$> scalar_calls cluster stats).
Proof. unfold scalar_calls. simpl. table_fact. Qed.

Lemma remap_calls_last allStats nodes last :
  Nodes allStats = (nodes ++ [last])%list →
  ∃ earlier,
    remap_calls allStats
    = (earlier ++ scalar_calls (ClusterName allStats) last.2)%list.
Proof.
  intros Hn. unfold remap_calls. rewrite Hn, flat_map_app. simpl.
  unfold node_calls. rewrite app_nil_r, !app_assoc. by eexists.
Qed.

Lemma final_value_scalar k name lvs cluster stats c earlier init :
  c ∈ scalar_calls cluster stats →
  k = call_table c → name = call_key c → lvs = [cluster] →
  final_value k name lvs (earlier ++ scalar_calls cluster stats) init
  = Some (call_value c).
Proof.
  intros Hc -> -> ->. rewrite final_value_app.
  rewrite <- (scalar_calls_lvs cluster stats c Hc).
  apply final_value_NoDup; [apply scalar_calls_NoDup|done].
Qed.

Lemma gc_call_elem allStats node collector name :
  node ∈ Nodes allStats →
  collector ∈ (Collectors (GC (JVM node.2))).*1 →
  name ∈ counterVecMetrics.*1 →
  ∃ c, c ∈ remap_calls allStats ∧ call_table c = Counter ∧ call_key c = name
       ∧ call_lvs c = [ClusterName allStats; collector].
Proof.
  intros Hnode ([collector' gcstats] & -> & Hin)%list_elem_of_fmap Hname.
  simpl in Hname.
  apply elem_of_cons in Hname as [->|Hname];
    [|apply list_elem_of_singleton in Hname as ->].
  - exists (counter_set "jvm_gc_collections"
              [ClusterName allStats; collector'] (CollectionCount gcstats)).
    split_and!; try done.
    apply elem_of_flat_map. exists node. split; [done|].
    unfold node_calls. apply elem_of_app. left.
    apply elem_of_flat_map. exists (collector', gcstats). split; [done|]. left.
  - exists (counter_set "jvm_gc_collections_time_ms"
              [ClusterName allStats; collector'] (CollectionTime gcstats)).
    split_and!; try done.
    apply elem_of_flat_map. exists node. split; [done|].
    unfold node_calls. apply elem_of_app. left.
    apply elem_of_flat_map. exists (collector', gcstats). split; [done|].
    right. left.
Qed.

Lemma breaker_call_elem allStats node breaker name :
  node ∈ Nodes allStats →
  breaker ∈ (Breakers node.2).*1 →
  name ∈ gaugeVecMetrics.*1 →
  ∃ c, c ∈ remap_calls allStats ∧ call_table c = Gauge ∧ call_key c = name
       ∧ call_lvs c = [ClusterName allStats; breaker].
Proof.
  intros Hnode ([breaker' bstats] & -> & Hin)%list_elem_of_fmap Hname.
  simpl in Hname.
  apply elem_of_cons in Hname as [->|Hname];
    [|apply list_elem_of_singleton in Hname as ->].
  - exists (gauge_set "breakers_estimated_size_bytes"
              [ClusterName allStats; breaker'] (EstimatedSize bstats)).
    split_and!; try done.
    apply elem_of_flat_map. exists node. split; [done|].
    unfold node_calls. apply elem_of_app. right. apply elem_of_app. left.
    apply elem_of_flat_map. exists (breaker', bstats). split; [done|]. left.
  - exists (gauge_set "breakers_limit_size_bytes"
              [ClusterName allStats; breaker'] (LimitSize bstats)).
    split_and!; try done.
    apply elem_of_flat_map. exists node. split; [done|].
    unfold node_calls. apply elem_of_app. right. apply elem_of_app. left.
    apply elem_of_flat_map. exists (breaker', bstats). split; [done|].
    right. left.
Qed.



(** ** The labels of the series sent *)

Lemma NewExporter_opts k name vec :
  table_of k (NewExporter "" 0) !! name = Some vec →
  Name (opts (desc vec)) = name ∧ Namespace (opts (desc vec)) = namespace.
Proof.
  intros H. unfold NewExporter in H.
  destruct k; cbn [table_of gauges counters] in H.
  - apply range_insert_lookup in H as [H|(? & _ & ->)]; [|done].
    apply range_insert_lookup in H as [H|(? & _ & ->)]; [|done].
    by rewrite lookup_empty in H.
  - apply range_insert_lookup in H as [H|(? & _ & ->)]; [|done].
    apply range_insert_lookup in H as [H|(? & _ & ->)]; [|done].
    by rewrite lookup_empty in H.
Qed.

Lemma final_value_no_match k name lvs cs init :
  (∀ c, c ∈ cs → ¬ (call_table c = k ∧ call_key c = name ∧ call_lvs c = lvs)) →
  final_value k name lvs cs init = init.
Proof.
  revert init. induction cs as [|c cs IH]; intros init Hno; simpl; [done|].
  rewrite decide_False by (apply Hno; left).
  apply IH. intros c' Hc'. apply Hno. by right.
Qed.

Lemma report_tail_labels allStats e' m :
  schema_ok e' →
  (∀ k name lvs,
     series k name lvs e' = final_value k name lvs (remap_calls allStats) None) →
  m ∈ (flat_map (λ entry, Vec_Collect entry.2) (map_to_list (counters e'))
       ++ flat_map (λ entry, Vec_Collect entry.2) (map_to_list (gauges e')))%list →
  remapped_labels allStats m.
Proof.
  intros Hok Hseries (k & name & vec & lvs & v & Hvec & Hs & ->)%elem_of_report_tail.
  rewrite Hseries in Hs.
  apply final_value_Some in Hs as [?|(c & Hc & Hk & Hn & Hl & _)]; [done|].
  apply remap_calls_shape in Hc as (node & Hnode & _ & Hshape).
  destruct (schema_ok_registered e' k name vec Hok Hvec)
    as (Hreg & Hkind & vec0 & Hvec0 & Hdesc).
  apply NewExporter_opts in Hvec0 as [Hname _]. rewrite Hdesc in Hname.
  unfold remapped_labels, labelPairs. simpl. rewrite Hkind, Hname. subst k name lvs.
  destruct Hshape as [collector Hcol Ht Hkey Hlabels Hlvs
                     |breaker Hbr Ht Hkey Hlabels Hlvs
                     |_ Hkey Hlabels Hlvs].
  - right. right. exists node, collector. rewrite Ht in *.
    rewrite Hlabels in Hreg. injection Hreg as <-. rewrite Hlvs.
    split_and!; first [assumption | reflexivity].
  - right. left. exists node, breaker. rewrite Ht in *.
    rewrite Hlabels in Hreg. injection Hreg as <-. rewrite Hlvs.
    split_and!; first [assumption | reflexivity].
  - left. rewrite Hlabels in Hreg. injection Hreg as <-. rewrite Hlvs.
    split; first [assumption | reflexivity].
Qed.

(** C4, as the code has it.  In a successful cycle the first metric sent is
    the [up] gauge, which has no label at all.  Every series sent after it
    has [cluster] as its first label, with the cluster name of the payload as
    value; the series of a vector metric has one more label after it, the
    breaker or the collector of some node of the payload. *)
Theorem Collect_cluster_label_first (e : Exporter) (allStats : NodeStatsResponse) :
  initialised e →
  ∃ o rest,
    Collect (Decoded allStats) e = Some o
    ∧ sent o = Gauge_Metric (up (exporter o)) :: rest
    ∧ labelPairs (Gauge_Metric (up (exporter o))) = []
    ∧ ∀ m, m ∈ rest →
        (Name (opts (metric_desc m)) ∈ (scalar_table (kind (metric_desc m))).*1
         ∧ labelPairs m = [("cluster", ClusterName allStats)])
        ∨ (∃ node breaker,
             node ∈ Nodes allStats ∧ breaker ∈ (Breakers node.2).*1
             ∧ kind (metric_desc m) = Gauge
             ∧ Name (opts (metric_desc m)) ∈ gaugeVecMetrics.*1
             ∧ labelPairs m =
                 [("cluster", ClusterName allStats); ("breaker", breaker)])
        ∨ (∃ node collector,
             node ∈ Nodes allStats
             ∧ collector ∈ (Collectors (GC (JVM node.2))).*1
             ∧ kind (metric_desc m) = Counter
             ∧ Name (opts (metric_desc m)) ∈ counterVecMetrics.*1
             ∧ labelPairs m =
                 [("cluster", ClusterName allStats); ("collector", collector)]).
Proof.
  intros Hinit.
  destruct (Collect_Decoded allStats e Hinit) as (e' & _ & H & Hok & Hup & Hseries).
  eexists _, _. split; [exact H|]. simpl. split_and!.
  - reflexivity.
  - unfold labelPairs. simpl. rewrite Hup. simpl.
    destruct Hinit as (_ & _ & ->). reflexivity.
  - intros m Hm. by apply (report_tail_labels allStats e' m Hok Hseries).
Qed.

Lemma Collect_cluster_label_first_witness :
  initialised default_exporter
  ∧ ∃ o rest,
      Collect (Decoded es_test) default_exporter = Some o
      ∧ sent o = Gauge_Metric (up (exporter o)) :: rest
      ∧ labelPairs (Gauge_Metric (up (exporter o))) = []
      ∧ ∀ m, m ∈ rest → ∃ dimension, labelPairs m = ("cluster", "es-test") :: dimension.
Proof.
  assert (initialised default_exporter) as Hinit by (repeat split; reflexivity).
  split; [exact Hinit|].
  destruct (Collect_cluster_label_first default_exporter es_test Hinit)
    as (o & rest & H & Hsent & Hup & Hrest).
  exists o, rest. split; [exact H|]. split; [exact Hsent|]. split; [exact Hup|].
  intros m Hm.
  destruct (Hrest m Hm) as [[_ ->]|[(_ & b & _ & _ & _ & _ & ->)|(_ & c & _ & _ & _ & _ & ->)]];
    eexists; reflexivity.
Defined.

(** C4 as stated fails: the [up] gauge is one of the metrics a successful
    cycle sends, and it carries no [cluster] label. *)
Lemma up_gauge_has_no_cluster_label :
  ¬ (∀ o m,
       Collect (Decoded es_test) default_exporter = Some o →
       m ∈ sent o →
       ∃ rest, labelPairs m = ("cluster", ClusterName es_test) :: rest).
Proof.
  intros Hclaim.
  assert (initialised default_exporter) as Hinit by (repeat split; reflexivity).
  destruct (Collect_Decoded es_test default_exporter Hinit)
    as (e' & _ & H & _ & Hup & _).
  destruct (Hclaim _ (Gauge_Metric (up e')) H) as [rest Hrest].
  - simpl. unfold report. left.
  - unfold labelPairs in Hrest. simpl in Hrest. rewrite Hup in Hrest.
    discriminate Hrest.
Qed.

(** ** Breakers that come and go *)

Lemma breaker_series_absent allStats e' name cluster breaker :
  (∀ k name lvs,
     series k name lvs e' = final_value k name lvs (remap_calls allStats) None) →
  (∀ node, node ∈ Nodes allStats → breaker ∉ (Breakers node.2).*1) →
  series Gauge name [cluster; breaker] e' = None.
Proof.
  intros Hseries Hgone. rewrite Hseries.
  destruct (final_value _ _ _ _ _) as [v|] eqn:Hv; [|done].
  apply final_value_Some in Hv as [?|(c & Hc & Hk & _ & Hl & _)]; [done|].
  apply remap_calls_shape in Hc as (node & Hnode & _ & Hshape).
  destruct Hshape as [collector _ Ht _ _ _|breaker' Hbr _ _ _ Hlvs|_ _ _ Hlvs].
  - congruence.
  - rewrite Hlvs in Hl. injection Hl as _ ->. by destruct (Hgone node Hnode).
  - rewrite Hlvs in Hl. discriminate Hl.
Qed.

(** C6.  A breaker seen in one cycle and missing from every node of the
    payload of the next: after the first cycle both breaker metrics have a
    series for it; after the second neither has one, whatever the cluster
    label, and no metric sent carries the label [breaker] with its name. *)
Theorem Collect_drops_absent_breaker (e : Exporter)
    (first second : NodeStatsResponse) (node : string * NodeStats)
    (breakerA : string) :
  initialised e →
  node ∈ Nodes first →
  breakerA ∈ (Breakers node.2).*1 →
  (∀ node', node' ∈ Nodes second → breakerA ∉ (Breakers node'.2).*1) →
  ∃ o1 o2,
    Collect (Decoded first) e = Some o1
    ∧ Collect (Decoded second) (exporter o1) = Some o2
    ∧ (∀ name, name ∈ gaugeVecMetrics.*1 →
         is_Some (series Gauge name [ClusterName first; breakerA] (exporter o1)))
    ∧ (∀ name cluster,
         series Gauge name [cluster; breakerA] (exporter o2) = None)
    ∧ (∀ m, m ∈ sent o2 → ("breaker", breakerA) ∉ labelPairs m).
Proof.
  intros Hinit Hnode HbreakerA Hgone.
  destruct (Collect_Decoded first e Hinit) as (e1 & _ & H1 & _ & _ & Hseries1).
  pose proof (Collect_initialised _ _ _ Hinit H1) as Hinit1. simpl in Hinit1.
  destruct (Collect_Decoded second e1 Hinit1) as (e2 & _ & H2 & Hok2 & Hup2 & Hseries2).
  eexists _, _. split; [exact H1|]. split; [exact H2|]. simpl. split_and!.
  - intros name Hname. rewrite Hseries1.
    destruct (breaker_call_elem first node breakerA name) as (c & ? & ? & ? & ?);
      [done..|].
    by eapply final_value_is_Some.
  - intros name cluster. by eapply breaker_series_absent.
  - intros m Hm. unfold report in Hm. apply elem_of_cons in Hm as [->|Hm].
    + unfold labelPairs. simpl. rewrite Hup2. simpl.
      destruct Hinit1 as (_ & _ & ->). simpl. apply not_elem_of_nil.
    + destruct (report_tail_labels second e2 m Hok2 Hseries2 Hm)
        as [[_ ->]|[(node' & b & Hnode' & Hb & _ & _ & ->)|(_ & c & _ & _ & _ & _ & ->)]].
      * intros [=]%list_elem_of_singleton.
      * intros [[=]|[= <-]%list_elem_of_singleton]%elem_of_cons.
        by destruct (Hgone node' Hnode').
      * intros [[=]|[=]%list_elem_of_singleton]%elem_of_cons.
Qed.

Lemma Collect_drops_absent_breaker_witness :
  let node := ("node-1",
               node_stats 1048576
                 [("young", {| CollectionCount := 3; CollectionTime := 40 |})]
                 [("fielddata", {| EstimatedSize := 100; LimitSize := 1000 |})]) in
  initialised default_exporter
  ∧ node ∈ Nodes es_test
  ∧ "fielddata" ∈ (Breakers node.2).*1
  ∧ (∀ node', node' ∈ Nodes es_test_later → "fielddata" ∉ (Breakers node'.2).*1)
  ∧ ∃ o1 o2,
      Collect (Decoded es_test) default_exporter = Some o1
      ∧ Collect (Decoded es_test_later) (exporter o1) = Some o2
      ∧ (∀ name, name ∈ gaugeVecMetrics.*1 →
           is_Some (series Gauge name ["es-test"; "fielddata"] (exporter o1)))
      ∧ (∀ name cluster,
           series Gauge name [cluster; "fielddata"] (exporter o2) = None)
      ∧ (∀ m, m ∈ sent o2 → ("breaker", "fielddata") ∉ labelPairs m).
Proof.
  intros node.
  assert (initialised default_exporter) as Hinit by (repeat split; reflexivity).
  assert (node ∈ Nodes es_test) as Hnode by pick_elem.
  assert ("fielddata" ∈ (Breakers node.2).*1) as Hbr by pick_elem.
  assert (∀ node', node' ∈ Nodes es_test_later →
            "fielddata" ∉ (Breakers node'.2).*1) as Hgone.
  { intros node' Hin. simpl in Hin. apply list_elem_of_singleton in Hin.
    rewrite Hin. simpl. intros Hbad. apply list_elem_of_singleton in Hbad.
    discriminate Hbad. }
  split; [exact Hinit|]. split; [exact Hnode|]. split; [exact Hbr|].
  split; [exact Hgone|].
  exact (Collect_drops_absent_breaker default_exporter es_test es_test_later
           node "fielddata" Hinit Hnode Hbr Hgone).
Defined.

(** ** End to end *)

Lemma gc_calls_table cluster stats c :
  c ∈ gc_calls cluster stats → call_table c = Counter.
Proof.
  intros [[collector gcstats] [_ Hc]]%elem_of_flat_map. simpl in Hc.
  apply elem_of_cons in Hc as [->|Hc]; [done|].
  by apply list_elem_of_singleton in Hc as ->.
Qed.

Lemma series_sent e' k name vec0 lvs v :
  schema_ok e' →
  table_of k (NewExporter "" 0) !! name = Some vec0 →
  series k name lvs e' = Some v →
  {| metric_desc := desc vec0; labelValues := lvs; value := v |} ∈ report e'.
Proof.
  intros Hok Hvec0 Hs.
  assert ((desc <$> table_of k e') !! name = Some (desc vec0)) as Hd.
  { by rewrite Hok, lookup_fmap, Hvec0. }
  rewrite lookup_fmap in Hd.
  destruct (table_of k e' !! name) as [vec|] eqn:Hvec; [|discriminate Hd].
  injection Hd as <-. unfold report. right.
  apply elem_of_report_tail. by exists k, name, vec, lvs, v.
Qed.

(** C7.  For a payload of cluster [es-test] with exactly one node, whose
    used heap is 1048576 and whose only breaker is [fielddata] with estimated
    size 100 and limit 1000, a cycle sends the gauge
    [jvm_mem_heap_used_bytes] with the single label [cluster="es-test"] and
    value 1048576, and the gauge [breakers_estimated_size_bytes] with labels
    [cluster="es-test"], [breaker="fielddata"] and value 100. *)
Theorem Collect_es_test_end_to_end (e : Exporter) (id : string) (stats : NodeStats) :
  initialised e →
  HeapUsed (Mem (JVM stats)) = 1048576%Z →
  Breakers stats = [("fielddata", {| EstimatedSize := 100; LimitSize := 1000 |})] →
  ∃ o heap estimated,
    Collect (Decoded {| ClusterName := "es-test"; Nodes := [(id, stats)] |}) e
    = Some o
    ∧ heap ∈ sent o
    ∧ kind (metric_desc heap) = Gauge
    ∧ Name (opts (metric_desc heap)) = "jvm_mem_heap_used_bytes"
    ∧ labelPairs heap = [("cluster", "es-test")]
    ∧ value heap = 1048576%Z
    ∧ estimated ∈ sent o
    ∧ kind (metric_desc estimated) = Gauge
    ∧ Name (opts (metric_desc estimated)) = "breakers_estimated_size_bytes"
    ∧ labelPairs estimated = [("cluster", "es-test"); ("breaker", "fielddata")]
    ∧ value estimated = 100%Z.
Proof.
  intros Hinit Hheap Hbreakers.
  set (allStats := {| ClusterName := "es-test"; Nodes := [(id, stats)] |}).
  destruct (Collect_Decoded allStats e Hinit) as (e' & _ & H & Hok & _ & Hseries).
  assert (series Gauge "jvm_mem_heap_used_bytes" ["es-test"] e' = Some 1048576%Z)
    as Hs1.
  { rewrite Hseries.
    destruct (remap_calls_last allStats [] (id, stats) eq_refl) as [earlier ->].
    rewrite <- Hheap.
    apply (final_value_scalar _ _ _ "es-test" stats
             (gauge_set "jvm_mem_heap_used_bytes" ["es-test"]
                (HeapUsed (Mem (JVM stats))))); [pick_elem|done..]. }
  assert (series Gauge "breakers_estimated_size_bytes" ["es-test"; "fielddata"] e'
          = Some 100%Z) as Hs2.
  { rewrite Hseries. unfold remap_calls, allStats. simpl.
    unfold node_calls. rewrite app_nil_r, !final_value_app.
    rewrite (final_value_no_match _ _ _ (gc_calls _ _)).
    2:{ intros c Hc (Hk & _ & _). apply gc_calls_table in Hc. congruence. }
    rewrite (final_value_no_match _ _ _ (scalar_calls _ _)).
    2:{ intros c Hc (_ & _ & Hl). apply scalar_calls_lvs in Hc. congruence. }
    unfold breaker_calls. rewrite Hbreakers. vm_compute. reflexivity. }
  eexists _, _, _. split; [exact H|]. simpl. split_and!.
  - eapply (series_sent e' Gauge "jvm_mem_heap_used_bytes"); [done| |exact Hs1].
    vm_compute. reflexivity.
  - reflexivity.
  - reflexivity.
  - reflexivity.
  - reflexivity.
  - eapply (series_sent e' Gauge "breakers_estimated_size_bytes"); [done| |exact Hs2].
    vm_compute. reflexivity.
  - reflexivity.
  - reflexivity.
  - reflexivity.
  - reflexivity.
Qed.

Lemma Collect_es_test_end_to_end_witness :
  let stats :=
    node_stats 1048576
      [("young", {| CollectionCount := 3; CollectionTime := 40 |})]
      [("fielddata", {| EstimatedSize := 100; LimitSize := 1000 |})] in
  initialised default_exporter
  ∧ HeapUsed (Mem (JVM stats)) = 1048576%Z
  ∧ Breakers stats = [("fielddata", {| EstimatedSize := 100; LimitSize := 1000 |})]
  ∧ ∃ o heap estimated,
      Collect (Decoded es_test) default_exporter = Some o
      ∧ heap ∈ sent o
      ∧ kind (metric_desc heap) = Gauge
      ∧ Name (opts (metric_desc heap)) = "jvm_mem_heap_used_bytes"
      ∧ labelPairs heap = [("cluster", "es-test")]
      ∧ value heap = 1048576%Z
      ∧ estimated ∈ sent o
      ∧ kind (metric_desc estimated) = Gauge
      ∧ Name (opts (metric_desc estimated)) = "breakers_estimated_size_bytes"
      ∧ labelPairs estimated = [("cluster", "es-test"); ("breaker", "fielddata")]
      ∧ value estimated = 100%Z.
Proof.
  intros stats.
  assert (initialised default_exporter) as Hinit by (repeat split; reflexivity).
  split; [exact Hinit|]. split; [reflexivity|]. split; [reflexivity|].
  exact (Collect_es_test_end_to_end default_exporter "node-1" stats
           Hinit eq_refl eq_refl).
Defined.

(** ** The order in which [range] visits the payload *)

Lemma apply_calls_frame cs e e' :
  apply_calls cs e = Some e' →
  URI e' = URI e ∧ client_timeout e' = client_timeout e.
Proof.
  revert e. induction cs as [|c cs IH]; intros e; simpl.
  - by intros [= ->].
  - destruct (apply_call c e) as [e1|] eqn:H1; simpl; [|done].
    intros [-> ->]%IH.
    apply apply_call_inv in H1 as (vec & _ & _ & ->). by destruct (call_table c).
Qed.





(** Two blocks of statements that write different series commute. *)
Lemma final_value_comm k name lvs cs1 cs2 init :
  (∀ c1 c2, c1 ∈ cs1 → c2 ∈ cs2 → call_lvs c1 ≠ call_lvs c2) →
  final_value k name lvs (cs1 ++ cs2) init
  = final_value k name lvs (cs2 ++ cs1) init.
Proof.
  intros Hdisj. rewrite !final_value_app.
  destruct (decide (lvs ∈ call_lvs <$> cs1)) as [Hin|Hout].
  - apply list_elem_of_fmap in Hin as (c1 & -> & Hc1).
    rewrite !(final_value_no_match _ _ _ cs2); [done|..];
      intros c2 Hc2 (_ & _ & Heq); by apply (Hdisj c1 c2).
  - rewrite !(final_value_no_match _ _ _ cs1); [done|..];
      intros c1 Hc1 (_ & _ & Heq); apply Hout, list_elem_of_fmap; by exists c1.
Qed.

(** The statements run per entry of a map of the payload write series
    that carry the key of the entry, so the order of the entries does not
    matter. *)
Lemma final_value_entries {A} (f : string * A → list SetCall) cluster
    k name lvs (entries entries' : list (string * A)) :
  (∀ entry c, c ∈ f entry → call_lvs c = [cluster; entry.1]) →
  entries ≡ₚ entries' →
  NoDup entries.*1 →
  ∀ init,
    final_value k name lvs (flat_map f entries) init
    = final_value k name lvs (flat_map f entries') init.
Proof.
  intros Hf Hperm.
  induction Hperm as [|x l l' Hperm IH|x y l|l l' l'' Hperm1 IH1 Hperm2 IH2];
    intros Hnd init.
  - done.
  - simpl. rewrite !final_value_app. apply IH.
    rewrite fmap_cons in Hnd. by apply NoDup_cons in Hnd as [_ ?].
  - simpl. rewrite !app_assoc, !(final_value_app _ _ _ _ (flat_map f l)).
    f_equal. apply final_value_comm. intros c1 c2 Hc1 Hc2.
    rewrite (Hf _ _ Hc1), (Hf _ _ Hc2). intros [= Heq].
    rewrite !fmap_cons in Hnd. apply NoDup_cons in Hnd as [Hnd _].
    apply Hnd. rewrite Heq. left.
  - rewrite IH1 by done. apply IH2. by rewrite <- Hperm1.
Qed.

Lemma gc_calls_lvs cluster (entry : string * GCCollectorStats) c :
  c ∈ [ counter_set "jvm_gc_collections" [cluster; entry.1]
          (CollectionCount entry.2);
        counter_set "jvm_gc_collections_time_ms" [cluster; entry.1]
          (CollectionTime entry.2) ] →
  call_lvs c = [cluster; entry.1].
Proof.
  intros [->|Hc]%elem_of_cons; [done|].
  by apply list_elem_of_singleton in Hc as ->.
Qed.

Lemma breaker_calls_lvs cluster (entry : string * BreakerStats) c :
  c ∈ [ gauge_set "breakers_estimated_size_bytes" [cluster; entry.1]
          (EstimatedSize entry.2);
        gauge_set "breakers_limit_size_bytes" [cluster; entry.1]
          (LimitSize entry.2) ] →
  call_lvs c = [cluster; entry.1].
Proof.
  intros [->|Hc]%elem_of_cons; [done|].
  by apply list_elem_of_singleton in Hc as ->.
Qed.


(** With two nodes it does: the node visited last decides the per-node
    metrics. *)
Lemma two_nodes_visit_order_matters :
  ∃ o o',
    Collect (Decoded two_nodes) default_exporter = Some o
    ∧ Collect (Decoded two_nodes_reversed) default_exporter = Some o'
    ∧ series Gauge "jvm_mem_heap_used_bytes" ["es-test"] (exporter o) = Some 2%Z
    ∧ series Gauge "jvm_mem_heap_used_bytes" ["es-test"] (exporter o') = Some 1%Z.
Proof.
  assert (initialised default_exporter) as Hinit by (repeat split; reflexivity).
  destruct (Collect_Decoded two_nodes default_exporter Hinit)
    as (e1 & _ & H1 & _ & _ & Hs1).
  destruct (Collect_Decoded two_nodes_reversed default_exporter Hinit)
    as (e2 & _ & H2 & _ & _ & Hs2).
  eexists _, _. split; [exact H1|]. split; [exact H2|]. simpl.
  rewrite Hs1, Hs2. split; vm_compute; reflexivity.
Qed.

(** * Further properties *)

(** ** What [NewExporter] registers *)

Lemma range_insert_other {A} (mk : string → A → Vec) table m name :
  name ∉ table.*1 → range_insert mk table m !! name = m !! name.
Proof.
  unfold range_insert. revert m.
  induction table as [|[n a] table IH]; intros m Hout; simpl; [done|].
  rewrite fmap_cons in Hout. apply not_elem_of_cons in Hout as [Hne Hout].
  rewrite IH by done. by apply lookup_insert_ne.
Qed.

Lemma range_insert_entry {A} (mk : string → A → Vec) table m name a :
  NoDup table.*1 → (name, a) ∈ table →
  range_insert mk table m !! name = Some (mk name a).
Proof.
  unfold range_insert. revert m.
  induction table as [|[n a'] table IH]; intros m Hnd Hin; simpl.
  - by apply elem_of_nil in Hin.
  - rewrite fmap_cons in Hnd. apply NoDup_cons in Hnd as [Hfresh Hnd].
    apply elem_of_cons in Hin as [[= -> ->]|Hin]; [|by apply IH].
    fold (range_insert mk table (<[n:=mk n a']> m)).
    rewrite range_insert_other by done. apply lookup_insert_eq.
Qed.

Lemma table_names_distinct :
  NoDup gaugeMetrics.*1 ∧ NoDup gaugeVecMetrics.*1
  ∧ NoDup counterMetrics.*1 ∧ NoDup counterVecMetrics.*1
  ∧ Forall (λ name, name ∉ gaugeMetrics.*1) gaugeVecMetrics.*1
  ∧ Forall (λ name, name ∉ counterMetrics.*1) counterVecMetrics.*1.
Proof. split_and!; table_fact. Qed.

(** X1.  [NewExporter] registers every entry of the four tables and nothing
    else: [gauges] holds exactly one vector per entry of [gaugeMetrics]
    (label [cluster]) and of [gaugeVecMetrics] ([cluster], then the labels of
    the entry), built from that entry's name and help, and [counters]
    likewise.  No entry overwrites another. *)
Theorem NewExporter_registers_tables (uri : string) (timeout : Z)
    (name : string) (vec : Vec) :
  (gauges (NewExporter uri timeout) !! name = Some vec
   ↔ (∃ help, (name, help) ∈ gaugeMetrics
        ∧ vec = NewGaugeVec {| Namespace := "elasticsearch"; Name := name;
                               Help := help |} ["cluster"])
     ∨ (∃ info, (name, info) ∈ gaugeVecMetrics
          ∧ vec = NewGaugeVec {| Namespace := "elasticsearch"; Name := name;
                                 Help := help info |}
                              ("cluster" :: labels info)))
  ∧ (counters (NewExporter uri timeout) !! name = Some vec
     ↔ (∃ help, (name, help) ∈ counterMetrics
          ∧ vec = NewCounterVec {| Namespace := "elasticsearch"; Name := name;
                                   Help := help |} ["cluster"])
       ∨ (∃ info, (name, info) ∈ counterVecMetrics
            ∧ vec = NewCounterVec {| Namespace := "elasticsearch"; Name := name;
                                     Help := help info |}
                                  ("cluster" :: labels info))).
Proof.
  destruct table_names_distinct as (Hg & Hgv & Hc & Hcv & Hgd & Hcd).
  unfold NewExporter. cbn [gauges counters]. split; split.
  - intros H.
    apply range_insert_lookup in H as [H|(help & Hin & ->)]; [|left; by exists help].
    apply range_insert_lookup in H as [H|(info & Hin & ->)]; [|right; by exists info].
    by rewrite lookup_empty in H.
  - intros [(help & Hin & ->)|(info & Hin & ->)].
    + by rewrite (range_insert_entry _ _ _ _ _ Hg Hin).
    + rewrite range_insert_other.
      * by rewrite (range_insert_entry _ _ _ _ _ Hgv Hin).
      * rewrite Forall_forall in Hgd. apply Hgd.
        apply list_elem_of_fmap. by exists (name, info).
  - intros H.
    apply range_insert_lookup in H as [H|(help & Hin & ->)]; [|left; by exists help].
    apply range_insert_lookup in H as [H|(info & Hin & ->)]; [|right; by exists info].
    by rewrite lookup_empty in H.
  - intros [(help & Hin & ->)|(info & Hin & ->)].
    + by rewrite (range_insert_entry _ _ _ _ _ Hc Hin).
    + rewrite range_insert_other.
      * by rewrite (range_insert_entry _ _ _ _ _ Hcv Hin).
      * rewrite Forall_forall in Hcd. apply Hcd.
        apply list_elem_of_fmap. by exists (name, info).
Qed.

(** ** Describe *)

Lemma describe_table (tbl : gmap string Vec) :
  flat_map (λ entry, Vec_Describe entry.2) (map_to_list tbl)
  = (map_to_list (desc <$> tbl)).*2.
Proof.
  rewrite map_to_list_fmap. unfold Vec_Describe.
  induction (map_to_list tbl) as [|[name vec] l IH]; simpl; [done|].
  by rewrite IH.
Qed.

Lemma elem_of_describe_table (tbl : gmap string Vec) (d : Desc) :
  d ∈ flat_map (λ entry, Vec_Describe entry.2) (map_to_list tbl)
  ↔ ∃ name vec, tbl !! name = Some vec ∧ d = desc vec.
Proof.
  rewrite elem_of_flat_map. split.
  - intros ([name vec] & Hin%elem_of_map_to_list & Hd).
    apply list_elem_of_singleton in Hd. by exists name, vec.
  - intros (name & vec & Hvec & ->). exists (name, vec).
    split; [by apply elem_of_map_to_list|]. by apply list_elem_of_singleton.
Qed.

Lemma Describe_same_schema e e' :
  gauge_desc (up e') = gauge_desc (up e) →
  (∀ k, desc <$> table_of k e' = desc <$> table_of k e) →
  Describe e' = Describe e.
Proof.
  intros Hup Hd. unfold Describe. rewrite !describe_table, Hup.
  pose proof (Hd Counter) as Hc. pose proof (Hd Gauge) as Hg.
  simpl in Hc, Hg. by rewrite Hc, Hg.
Qed.

Lemma reset_schema k e : desc <$> table_of k (reset e) = desc <$> table_of k e.
Proof.
  rewrite table_of_reset, <- map_fmap_compose. by apply map_fmap_ext.
Qed.

(** A cycle keeps the descriptors, the address and the timeout. *)
Lemma Collect_keeps r e o :
  Collect r e = Some o →
  (∀ k, desc <$> table_of k (exporter o) = desc <$> table_of k e)
  ∧ gauge_desc (up (exporter o)) = gauge_desc (up e)
  ∧ URI (exporter o) = URI e
  ∧ client_timeout (exporter o) = client_timeout e.
Proof.
  unfold Collect. destruct r as [| | |allStats].
  - intros [= <-]. simpl. split_and!; try done.
    intros k. by rewrite table_of_up_Set, reset_schema.
  - intros [= <-]. simpl. split_and!; try done.
    intros k. by rewrite table_of_up_Set, reset_schema.
  - intros [= <-]. simpl. split_and!; try done.
    intros k. by rewrite table_of_up_Set, reset_schema.
  - destruct (apply_calls _ _) as [e'|] eqn:He'; simpl; [|done].
    intros [= <-]. simpl.
    destruct (apply_calls_frame _ _ _ He') as [Huri Htimeout].
    split_and!.
    + intros k.
      by rewrite (apply_calls_schema _ _ _ k He'), table_of_up_Set, reset_schema.
    + by rewrite (apply_calls_up _ _ _ He').
    + by rewrite Huri.
    + by rewrite Htimeout.
Qed.

(** X2.  [Describe] does not depend on what was collected: after any cycle
    that returns, it sends the descriptor of [up] first, as before, and then
    the same descriptors as before the cycle, each as many times; their
    order is that of the [range] over the maps, which is not fixed. *)
Theorem Describe_after_Collect (r : Upstream) (e : Exporter) (o : Outcome) :
  Collect r e = Some o →
  head (Describe (exporter o)) = Some (gauge_desc (up e))
  ∧ tail (Describe (exporter o)) ≡ₚ tail (Describe e)
  ∧ ∀ d, d ∈ Describe (exporter o) ↔ d ∈ Describe e.
Proof.
  intros (Hd & Hup & _)%Collect_keeps.
  rewrite (Describe_same_schema e (exporter o) Hup Hd). by split_and!.
Qed.

Lemma Describe_after_Collect_witness :
  ∃ o, Collect (Decoded es_test) default_exporter = Some o
       ∧ head (Describe (exporter o)) = Some (gauge_desc (up default_exporter))
       ∧ tail (Describe (exporter o)) ≡ₚ tail (Describe default_exporter)
       ∧ ∀ d, d ∈ Describe (exporter o) ↔ d ∈ Describe default_exporter.
Proof.
  assert (initialised default_exporter) as Hinit by (repeat split; reflexivity).
  destruct (Collect_Decoded es_test default_exporter Hinit) as (e' & _ & H & _).
  eexists. split; [exact H|].
  exact (Describe_after_Collect (Decoded es_test) default_exporter _ H).
Defined.

Lemma initialised_Describe e :
  initialised e → Describe e = Describe (NewExporter "" 0).
Proof.
  intros Hinit. apply Describe_same_schema.
  - by destruct Hinit as (_ & _ & ->).
  - by apply initialised_schema_ok.
Qed.

(** X3.  The descriptors [Describe] sends for an exporter built by
    [NewExporter], at any later time: 31 of them, [up] first; no two have
    the same name; all are in the namespace [elasticsearch]; [up] has no
    label, and every other one has [cluster] as its first label, followed by
    at most one more. *)
Theorem Describe_initialised (e : Exporter) :
  initialised e →
  length (Describe e) = 31
  ∧ NoDup ((λ d, Name (opts d)) <$> Describe e)
  ∧ (∃ descs, Describe e = gauge_desc (up e) :: descs
        ∧ Name (opts (gauge_desc (up e))) = "up"
        ∧ labelNames (gauge_desc (up e)) = []
        ∧ Forall (λ d, labelNames d = ["cluster"]
                        ∨ labelNames d = ["cluster"; "breaker"]
                        ∨ labelNames d = ["cluster"; "collector"]) descs)
  ∧ Forall (λ d, Namespace (opts d) = "elasticsearch") (Describe e).
Proof.
  intros Hinit. pose proof (initialised_Describe e Hinit) as Hd.
  assert (gauge_desc (up e) = gauge_desc (up (NewExporter "" 0))) as Hup.
  { by destruct Hinit as (_ & _ & ->). }
  split_and!.
  - rewrite Hd. vm_compute. reflexivity.
  - rewrite Hd. table_fact.
  - exists (tail (Describe e)). split; [reflexivity|]. rewrite Hup.
    split; [reflexivity|]. split; [reflexivity|].
    rewrite Hd. table_fact.
  - rewrite Hd. table_fact.
Qed.

Lemma Describe_initialised_witness :
  initialised default_exporter
  ∧ length (Describe default_exporter) = 31
  ∧ NoDup ((λ d, Name (opts d)) <$> Describe default_exporter).
Proof.
  assert (initialised default_exporter) as Hinit by (repeat split; reflexivity).
  split; [exact Hinit|].
  destruct (Describe_initialised default_exporter Hinit) as (Hlen & Hnd & _).
  split; [exact Hlen|exact Hnd].
Defined.

(** X4.  Every metric a cycle sends carries a descriptor that [Describe]
    announces. *)
Theorem sent_metrics_are_described (r : Upstream) (e : Exporter) (o : Outcome) :
  Collect r e = Some o →
  ∀ m, m ∈ sent o → metric_desc m ∈ Describe e.
Proof.
  intros H m Hm.
  rewrite <- (Describe_same_schema e (exporter o));
    [|by apply (Collect_keeps r e o)..].
  assert (sent o = [] ∨ sent o = report (exporter o)) as [Hs|Hs].
  { unfold Collect in H. destruct r; try (injection H as <-; by left).
    destruct (apply_calls _ _); simpl in H; [|done].
    injection H as <-. by right. }
  - rewrite Hs in Hm. by apply elem_of_nil in Hm.
  - rewrite Hs in Hm. unfold report in Hm. unfold Describe.
    apply elem_of_cons in Hm as [->|Hm]; [left|right].
    apply elem_of_app in Hm as [Hm|Hm]; apply elem_of_app; [left|right];
      apply elem_of_collect_table in Hm as (name & vec & lvs & v & Hvec & _ & ->);
      apply elem_of_describe_table; by exists name, vec.
Qed.

Lemma sent_metrics_are_described_witness :
  ∃ o, Collect (Decoded es_test) default_exporter = Some o
       ∧ sent o ≠ []
       ∧ ∀ m, m ∈ sent o → metric_desc m ∈ Describe default_exporter.
Proof.
  assert (initialised default_exporter) as Hinit by (repeat split; reflexivity).
  destruct (Collect_Decoded es_test default_exporter Hinit) as (e' & _ & H & _).
  eexists. split; [exact H|]. split; [discriminate|].
  exact (sent_metrics_are_described (Decoded es_test) default_exporter _ H).
Defined.

(** ** Runs of scrapes *)

Lemma NewExporter_initialised uri timeout : initialised (NewExporter uri timeout).
Proof. repeat split; reflexivity. Qed.

Lemma Collect_returns r e : initialised e → ∃ o, Collect r e = Some o.
Proof.
  intros Hinit. destruct r as [| | |allStats]; [by eexists..|].
  destruct (Collect_Decoded allStats e Hinit) as (e' & _ & H & _). by eexists.
Qed.

Lemma scrapes_initialised rs e :
  initialised e →
  ∃ e', scrapes rs e = Some e' ∧ initialised e'
        ∧ URI e' = URI e ∧ client_timeout e' = client_timeout e.
Proof.
  revert e. induction rs as [|r rs IH]; intros e Hinit; simpl.
  - by exists e.
  - destruct (Collect_returns r e Hinit) as [o Ho]. rewrite Ho. simpl.
    destruct (Collect_keeps r e o Ho) as (_ & _ & <- & <-).
    apply IH. by eapply Collect_initialised.
Qed.

(** X5.  The exporter [main] builds never panics, whatever the flags and
    whatever the upstream answers, scrape after scrape: every instrument the
    loop asks for is there and gets as many label values as it has label
    names.  The exporter keeps its instruments, its address (the flag
    followed by the path of the local node's stats) and its timeout. *)
Theorem scrapes_never_panic (flags : Flags) (rs : list Upstream) :
  ∃ e,
    scrapes rs (main_exporter flags) = Some e
    ∧ initialised e
    ∧ URI e = esURI flags ++ "/_nodes/_local/stats"
    ∧ client_timeout e = esTimeout flags.
Proof.
  apply (scrapes_initialised rs (main_exporter flags)).
  apply NewExporter_initialised.
Qed.

(** X6.  After any run of scrapes, the exporter is as the last scrape
    alone would have left it: what the earlier answers were makes no
    difference to the instruments, to [up], or to what is sent next. *)
Theorem scrapes_last_answer (e : Exporter) (rs : list Upstream) (r : Upstream) :
  initialised e →
  ∃ o, Collect r e = Some o ∧ scrapes (rs ++ [r]) e = Some (exporter o).
Proof.
  revert e. induction rs as [|r0 rs IH]; intros e Hinit.
  - destruct (Collect_returns r e Hinit) as [o Ho].
    exists o. split; [done|]. simpl. by rewrite Ho.
  - destruct (Collect_returns r0 e Hinit) as [o0 H0].
    destruct (IH (exporter o0) (Collect_initialised _ _ _ Hinit H0))
      as (o & Ho & Hs).
    destruct (Collect_leaves_reset r0 e o0 H0) as [y Hy].
    exists o. split.
    + by rewrite <- (Collect_after_reset r e (exporter o0) y Hy).
    + simpl. by rewrite H0.
Qed.

Lemma scrapes_last_answer_witness :
  initialised default_exporter
  ∧ ∃ o, Collect (Decoded es_test_later) default_exporter = Some o
         ∧ scrapes [Decoded es_test; GetError; Decoded es_test_later]
             default_exporter = Some (exporter o).
Proof.
  assert (initialised default_exporter) as Hinit by (repeat split; reflexivity).
  split; [exact Hinit|].
  exact (scrapes_last_answer default_exporter [Decoded es_test; GetError]
           (Decoded es_test_later) Hinit).
Defined.

(** ** What is never sent *)

Lemma up_not_a_table_name :
  ("up" ∉ gaugeMetrics.*1) ∧ ("up" ∉ counterMetrics.*1)
  ∧ ("up" ∉ gaugeVecMetrics.*1) ∧ ("up" ∉ counterVecMetrics.*1).
Proof. split_and!; table_fact. Qed.

(** X7.  The metric named [up] is sent with value 1 or not at all.  A
    failed GET and a failed read of the body both store 0 in the gauge, and
    both return without sending anything. *)
Theorem up_sent_as_1_or_not_at_all (r : Upstream) (e : Exporter) :
  initialised e →
  ∃ o,
    Collect r e = Some o
    ∧ (∀ m, m ∈ sent o → Name (opts (metric_desc m)) = "up" →
         value m = 1%Z ∧ labelPairs m = [])
    ∧ (r = GetError ∨ r = ReadError →
         gauge_value (up (exporter o)) = 0%Z ∧ sent o = []).
Proof.
  intros Hinit. destruct r as [| | |allStats].
  - eexists. split; [reflexivity|]. simpl. split; [|done].
    by intros m Hm%elem_of_nil.
  - eexists. split; [reflexivity|]. simpl. split; [|done].
    by intros m Hm%elem_of_nil.
  - eexists. split; [reflexivity|]. simpl. split; [|by intros [|]].
    by intros m Hm%elem_of_nil.
  - destruct (Collect_Decoded allStats e Hinit) as (e' & _ & H & Hok & Hup & Hseries).
    eexists. split; [exact H|]. simpl. split; [|by intros [|]].
    destruct up_not_a_table_name as (Hg & Hc & Hgv & Hcv).
    intros m Hm Hname. unfold report in Hm. apply elem_of_cons in Hm as [->|Hm].
    + unfold labelPairs. simpl. rewrite Hup. simpl.
      destruct Hinit as (_ & _ & ->). done.
    + exfalso.
      destruct (report_tail_labels allStats e' m Hok Hseries Hm)
        as [[Hin _]|[(_ & _ & _ & _ & _ & Hin & _)|(_ & _ & _ & _ & _ & Hin & _)]];
        rewrite Hname in Hin; [|done..].
      by destruct (kind (metric_desc m)).
Qed.

Lemma up_sent_as_1_or_not_at_all_witness :
  initialised default_exporter
  ∧ ∃ o,
      Collect ReadError default_exporter = Some o
      ∧ (∀ m, m ∈ sent o → Name (opts (metric_desc m)) = "up" →
           value m = 1%Z ∧ labelPairs m = [])
      ∧ (ReadError = GetError ∨ ReadError = ReadError →
           gauge_value (up (exporter o)) = 0%Z ∧ sent o = []).
Proof.
  assert (initialised default_exporter) as Hinit by (repeat split; reflexivity).
  split; [exact Hinit|].
  exact (up_sent_as_1_or_not_at_all ReadError default_exporter Hinit).
Defined.

Lemma merges_total_docs_not_set cluster stats c :
  c ∈ node_calls cluster stats → call_table c = Counter →
  call_key c ≠ "indices_merges_total_docs_total".
Proof.
  intros Hc Ht Hk.
  pose proof (node_calls_shape cluster stats) as Hshape.
  rewrite Forall_forall in Hshape.
  destruct (Hshape c Hc) as [collector _ _ Hkey _ _|breaker _ Ht' _ _ _|Hs _ _ _].
  - rewrite Hk in Hkey. revert Hkey. table_fact.
  - congruence.
  - assert (call_key c ∈ call_key <$> scalar_calls cluster stats) as Hin.
    { apply list_elem_of_fmap. by exists c. }
    rewrite Hk in Hin. simpl in Hin. revert Hin. table_fact.
Qed.

(** X8.  The counter [indices_merges_total_docs_total] is registered and
    described, but no cycle ever gives it a series: nothing in [Collect]
    sets it, so it is never sent. *)
Theorem merges_total_docs_never_sent (r : Upstream) (e : Exporter) :
  initialised e →
  ∃ o,
    Collect r e = Some o
    ∧ (∃ vec, counters (exporter o) !! "indices_merges_total_docs_total" = Some vec
              ∧ desc vec ∈ Describe (exporter o))
    ∧ (∀ lvs, series Counter "indices_merges_total_docs_total" lvs (exporter o) = None)
    ∧ (∀ m, m ∈ sent o →
         Name (opts (metric_desc m)) ≠ "indices_merges_total_docs_total").
Proof.
  intros Hinit. destruct (Collect_returns r e Hinit) as [o Ho].
  pose proof (Collect_initialised r e o Hinit Ho) as Hinit'.
  pose proof (initialised_schema_ok _ Hinit') as Hok'.
  assert (∀ lvs, series Counter "indices_merges_total_docs_total" lvs (exporter o)
                 = None) as Hnone.
  { intros lvs. destruct r as [| | |allStats];
      try (injection Ho as <-; simpl; by rewrite series_up_Set, series_reset).
    destruct (Collect_Decoded allStats e Hinit) as (e' & _ & H & _ & _ & Hseries).
    rewrite H in Ho. injection Ho as <-. simpl. rewrite Hseries.
    destruct (final_value _ _ _ _ _) as [v|] eqn:Hv; [|done].
    apply final_value_Some in Hv as [?|(c & Hc & Ht & Hk & _)]; [done|].
    apply elem_of_flat_map in Hc as (node & _ & Hc).
    by destruct (merges_total_docs_not_set _ _ c Hc Ht). }
  exists o. split; [done|]. split_and!.
  - destruct (schema_ok_lookup (exporter o) Counter
                "indices_merges_total_docs_total" ["cluster"] Hok')
      as (vec & Hvec & _); [vm_compute; reflexivity|].
    exists vec. split; [done|]. unfold Describe. right. apply elem_of_app. left.
    apply elem_of_describe_table. by eexists _, _.
  - done.
  - intros m Hm Hname.
    assert (sent o = [] ∨ sent o = report (exporter o)) as [Hs|Hs].
    { unfold Collect in Ho. destruct r; try (injection Ho as <-; by left).
      destruct (apply_calls _ _); simpl in Ho; [|done].
      injection Ho as <-. by right. }
    { rewrite Hs in Hm. by apply elem_of_nil in Hm. }
    rewrite Hs in Hm. unfold report in Hm. apply elem_of_cons in Hm as [->|Hm].
    + simpl in Hname. destruct Hinit' as (_ & _ & Hup). rewrite Hup in Hname.
      discriminate Hname.
    + apply elem_of_report_tail in Hm
        as (k & name & vec & lvs & v & Hvec & Hseries & ->).
      simpl in Hname.
      destruct (schema_ok_registered _ k name vec Hok' Hvec)
        as (Hreg & _ & vec0 & Hvec0 & Hdesc).
      apply NewExporter_opts in Hvec0 as [Hn _]. rewrite Hdesc, Hname in Hn.
      subst name. destruct k.
      * revert Hreg. generalize (labelNames (desc vec)). intros ls.
        vm_compute. discriminate.
      * rewrite Hnone in Hseries. discriminate Hseries.
Qed.

Lemma merges_total_docs_never_sent_witness :
  initialised default_exporter
  ∧ ∃ o,
      Collect (Decoded es_test) default_exporter = Some o
      ∧ (∀ lvs, series Counter "indices_merges_total_docs_total" lvs (exporter o)
                = None)
      ∧ (∀ m, m ∈ sent o →
           Name (opts (metric_desc m)) ≠ "indices_merges_total_docs_total").
Proof.
  assert (initialised default_exporter) as Hinit by (repeat split; reflexivity).
  split; [exact Hinit|].
  destruct (merges_total_docs_never_sent (Decoded es_test) default_exporter Hinit)
    as (o & H & _ & Hnone & Hsent).
  exists o. split; [exact H|]. split; [exact Hnone|exact Hsent].
Defined.

(** ** The series a successful cycle leaves *)

Lemma breaker_calls_table cluster stats c :
  c ∈ breaker_calls cluster stats → call_table c = Gauge.
Proof.
  intros [[breaker bstats] [_ Hc]]%elem_of_flat_map. simpl in Hc.
  apply elem_of_cons in Hc as [->|Hc]; [done|].
  by apply list_elem_of_singleton in Hc as ->.
Qed.


(** X9.  After a successful cycle the two breaker metrics have exactly one
    series per breaker name that occurs in some node of the payload,
    labelled with the cluster name and that breaker, and the two collector
    metrics exactly one per collector name.  A node without breakers (or
    collectors) adds no series: an empty map gives no series, not a series
    at 0. *)
Theorem vector_series_exact (e : Exporter) (allStats : NodeStatsResponse) :
  initialised e →
  ∃ o,
    Collect (Decoded allStats) e = Some o
    ∧ (∀ name lvs,
         name ∈ gaugeVecMetrics.*1 →
         is_Some (series Gauge name lvs (exporter o))
         ↔ ∃ node breaker,
             node ∈ Nodes allStats ∧ breaker ∈ (Breakers node.2).*1
             ∧ lvs = [ClusterName allStats; breaker])
    ∧ (∀ name lvs,
         name ∈ counterVecMetrics.*1 →
         is_Some (series Counter name lvs (exporter o))
         ↔ ∃ node collector,
             node ∈ Nodes allStats
             ∧ collector ∈ (Collectors (GC (JVM node.2))).*1
             ∧ lvs = [ClusterName allStats; collector]).
Proof.
  intros Hinit.
  destruct (Collect_Decoded allStats e Hinit) as (e' & _ & H & _ & _ & Hseries).
  destruct table_names_distinct as (_ & _ & _ & _ & Hgd & Hcd).
  rewrite Forall_forall in Hgd. rewrite Forall_forall in Hcd.
  eexists. split; [exact H|]. simpl. split.
  - intros name lvs Hname. rewrite Hseries. split.
    + intros [v Hv].
      apply final_value_Some in Hv as [?|(c & Hc & Ht & Hk & Hl & _)]; [done|].
      apply remap_calls_shape in Hc as (node & Hnode & _ & Hshape).
      destruct Hshape as [collector _ Ht' _ _ _|breaker Hbr _ _ _ Hlvs|_ Hkey _ _].
      * congruence.
      * exists node, breaker. by rewrite <- Hl, Hlvs.
      * rewrite Ht, Hk in Hkey. by destruct (Hgd name Hname).
    + intros (node & breaker & Hnode & Hbr & ->).
      destruct (breaker_call_elem allStats node breaker name) as (c & ? & ? & ? & ?);
        [done..|].
      by eapply final_value_is_Some.
  - intros name lvs Hname. rewrite Hseries. split.
    + intros [v Hv].
      apply final_value_Some in Hv as [?|(c & Hc & Ht & Hk & Hl & _)]; [done|].
      apply remap_calls_shape in Hc as (node & Hnode & _ & Hshape).
      destruct Hshape as [collector Hcol _ _ _ Hlvs|breaker _ Ht' _ _ _|_ Hkey _ _].
      * exists node, collector. by rewrite <- Hl, Hlvs.
      * congruence.
      * rewrite Ht, Hk in Hkey. by destruct (Hcd name Hname).
    + intros (node & collector & Hnode & Hcol & ->).
      destruct (gc_call_elem allStats node collector name) as (c & ? & ? & ? & ?);
        [done..|].
      by eapply final_value_is_Some.
Qed.

Lemma vector_series_exact_witness :
  initialised default_exporter
  ∧ ∃ o,
      Collect (Decoded es_test) default_exporter = Some o
      ∧ is_Some (series Gauge "breakers_limit_size_bytes"
                   ["es-test"; "fielddata"] (exporter o))
      ∧ ¬ is_Some (series Gauge "breakers_limit_size_bytes"
                     ["es-test"; "request"] (exporter o)).
Proof.
  assert (initialised default_exporter) as Hinit by (repeat split; reflexivity).
  split; [exact Hinit|].
  destruct (vector_series_exact default_exporter es_test Hinit) as (o & H & Hbr & _).
  assert ("breakers_limit_size_bytes" ∈ gaugeVecMetrics.*1) as Hname by pick_elem.
  exists o. split; [exact H|]. split.
  - apply (Hbr _ _ Hname).
    exists ("node-1",
            node_stats 1048576
              [("young", {| CollectionCount := 3; CollectionTime := 40 |})]
              [("fielddata", {| EstimatedSize := 100; LimitSize := 1000 |})]),
           "fielddata".
    split; [pick_elem|]. split; [pick_elem|reflexivity].
  - intros Hsome. apply (Hbr _ _ Hname) in Hsome
      as (node & breaker & Hnode & Hbreaker & Heq).
    simpl in Hnode. apply list_elem_of_singleton in Hnode. subst node.
    simpl in Hbreaker. apply list_elem_of_singleton in Hbreaker. subst breaker.
    discriminate Heq.
Defined.



Lemma remap_calls_last_parts allStats nodes last :
  Nodes allStats = (nodes ++ [last])%list →
  ∃ earlier,
    remap_calls allStats
    = (earlier ++ gc_calls (ClusterName allStats) last.2
         ++ breaker_calls (ClusterName allStats) last.2
         ++ scalar_calls (ClusterName allStats) last.2)%list.
Proof.
  intros Hn. unfold remap_calls. rewrite Hn, flat_map_app. simpl.
  unfold node_calls. rewrite app_nil_r. by eexists.
Qed.

Ltac decide_calls :=
  cbn [final_value fst snd call_table call_key call_lvs call_value
       gauge_set counter_set];
  repeat match goal with
         | |- context [decide ?P] => destruct (decide P) as [(_ & ? & _)|?]
         end;
  first [ reflexivity
        | congruence
        | exfalso;
          match goal with H : ¬ _ |- _ => apply H; split_and!; reflexivity end ].

(** The value the statements of one entry leave, when the keys of the map
    are distinct: the entries visited before or after do not touch it. *)
Lemma final_value_entry {A} (f : string * A → list SetCall) cluster
    k name (entries : list (string * A)) key a v :
  (∀ entry c, c ∈ f entry → call_lvs c = [cluster; entry.1]) →
  (∀ init, final_value k name [cluster; key] (f (key, a)) init = Some v) →
  NoDup entries.*1 → (key, a) ∈ entries →
  ∀ init, final_value k name [cluster; key] (flat_map f entries) init = Some v.
Proof.
  intros Hf Hv Hnd Hin init.
  apply elem_of_Permutation in Hin as [rest Hperm].
  assert (entries ≡ₚ rest ++ [(key, a)]) as Hperm'.
  { rewrite Hperm. apply Permutation_cons_append. }
  rewrite (final_value_entries f cluster k name _ _ _ Hf Hperm' Hnd).
  rewrite flat_map_app, final_value_app. simpl. rewrite app_nil_r. apply Hv.
Qed.

(** X11.  The values of the vector metrics.  When the node visited last
    has distinct breaker names and distinct collector names (as every
    decoded map has), each of its breakers has its estimated size and its
    limit in the two breaker metrics, and each of its collectors its count
    and its time in the two collector metrics, under the labels cluster
    name and breaker (or collector) name. *)
Theorem vector_series_values (e : Exporter) (allStats : NodeStatsResponse)
    (nodes : list (string * NodeStats)) (last : string * NodeStats) :
  initialised e →
  Nodes allStats = (nodes ++ [last])%list →
  NoDup (Breakers last.2).*1 →
  NoDup (Collectors (GC (JVM last.2))).*1 →
  ∃ o,
    Collect (Decoded allStats) e = Some o
    ∧ (∀ breaker bstats,
         (breaker, bstats) ∈ Breakers last.2 →
         series Gauge "breakers_estimated_size_bytes"
           [ClusterName allStats; breaker] (exporter o)
         = Some (EstimatedSize bstats)
         ∧ series Gauge "breakers_limit_size_bytes"
             [ClusterName allStats; breaker] (exporter o)
           = Some (LimitSize bstats))
    ∧ (∀ collector gcstats,
         (collector, gcstats) ∈ Collectors (GC (JVM last.2)) →
         series Counter "jvm_gc_collections"
           [ClusterName allStats; collector] (exporter o)
         = Some (CollectionCount gcstats)
         ∧ series Counter "jvm_gc_collections_time_ms"
             [ClusterName allStats; collector] (exporter o)
           = Some (CollectionTime gcstats)).
Proof.
  intros Hinit Hnodes Hndb Hndc.
  destruct (Collect_Decoded allStats e Hinit) as (e' & _ & H & _ & _ & Hseries).
  destruct (remap_calls_last_parts allStats nodes last Hnodes) as [earlier Hcalls].
  eexists. split; [exact H|]. simpl.
  assert (∀ k name x init,
            final_value k name [ClusterName allStats; x]
              (scalar_calls (ClusterName allStats) last.2) init = init) as Hscalar.
  { intros k name x init. apply final_value_no_match.
    intros c Hc (_ & _ & Hl). apply scalar_calls_lvs in Hc. congruence. }
  split.
  - intros breaker bstats Hin.
    rewrite !Hseries, Hcalls, !final_value_app, !Hscalar. unfold breaker_calls.
    split;
      (apply (final_value_entry _ (ClusterName allStats) Gauge _ _ breaker bstats);
       [apply breaker_calls_lvs| |done..]);
      intros init; decide_calls.
  - intros collector gcstats Hin.
    rewrite !Hseries, Hcalls, !final_value_app, !Hscalar.
    rewrite !(final_value_no_match _ _ _ (breaker_calls _ _)).
    2,3: intros c Hc (Ht & _ & _); apply breaker_calls_table in Hc; congruence.
    unfold gc_calls.
    split;
      (apply (final_value_entry _ (ClusterName allStats) Counter _ _ collector gcstats);
       [apply gc_calls_lvs| |done..]);
      intros init; decide_calls.
Qed.

Lemma vector_series_values_witness :
  let last := ("node-2", node_stats 2 []
                 [("request", {| EstimatedSize := 7; LimitSize := 1000 |})]) in
  initialised default_exporter
  ∧ Nodes two_nodes = (take 1 (Nodes two_nodes) ++ [last])%list
  ∧ NoDup (Breakers last.2).*1
  ∧ NoDup (Collectors (GC (JVM last.2))).*1
  ∧ ∃ o,
      Collect (Decoded two_nodes) default_exporter = Some o
      ∧ series Gauge "breakers_estimated_size_bytes" ["es-test"; "request"]
          (exporter o) = Some 7%Z
      ∧ series Gauge "breakers_limit_size_bytes" ["es-test"; "request"]
          (exporter o) = Some 1000%Z.
Proof.
  intros last.
  assert (initialised default_exporter) as Hinit by (repeat split; reflexivity).
  assert (Nodes two_nodes = (take 1 (Nodes two_nodes) ++ [last])%list) as Hnodes
    by reflexivity.
  assert (NoDup (Breakers last.2).*1) as Hndb by (vm_compute; repeat constructor; inversion 1).
  assert (NoDup (Collectors (GC (JVM last.2))).*1) as Hndc by (vm_compute; constructor).
  split; [exact Hinit|]. split; [exact Hnodes|]. split; [exact Hndb|].
  split; [exact Hndc|].
  destruct (vector_series_values default_exporter two_nodes _ last
              Hinit Hnodes Hndb Hndc) as (o & H & Hbr & _).
  exists o. split; [exact H|].
  apply (Hbr "request" {| EstimatedSize := 7; LimitSize := 1000 |}). pick_elem.
Defined.

(** ** The order of the maps, again *)


(** X13.  With two nodes in the payload the outcome depends on the order in
    which they are visited: each order ends with the used heap of the node
    it visits last, so when the two nodes differ there, by values that
    float64 holds exactly, the two orders leave different exporters. *)
Theorem two_nodes_order_decides (e : Exporter) (cluster : string)
    (id1 id2 : string) (stats1 stats2 : NodeStats) :
  initialised e →
  float64_exact (HeapUsed (Mem (JVM stats1))) →
  float64_exact (HeapUsed (Mem (JVM stats2))) →
  HeapUsed (Mem (JVM stats1)) ≠ HeapUsed (Mem (JVM stats2)) →
  ∃ o o',
    Collect (Decoded {| ClusterName := cluster;
                        Nodes := [(id1, stats1); (id2, stats2)] |}) e = Some o
    ∧ Collect (Decoded {| ClusterName := cluster;
                          Nodes := [(id2, stats2); (id1, stats1)] |}) e = Some o'
    ∧ series Gauge "jvm_mem_heap_used_bytes" [cluster] (exporter o)
      = Some (HeapUsed (Mem (JVM stats2)))
    ∧ series Gauge "jvm_mem_heap_used_bytes" [cluster] (exporter o')
      = Some (HeapUsed (Mem (JVM stats1)))
    ∧ exporter o ≠ exporter o'.
Proof.
  intros Hinit _ _ Hdiff.
  set (a := {| ClusterName := cluster; Nodes := [(id1, stats1); (id2, stats2)] |}).
  set (a' := {| ClusterName := cluster; Nodes := [(id2, stats2); (id1, stats1)] |}).
  destruct (Collect_Decoded a e Hinit) as (e1 & _ & H1 & _ & _ & Hs1).
  destruct (Collect_Decoded a' e Hinit) as (e2 & _ & H2 & _ & _ & Hs2).
  assert (series Gauge "jvm_mem_heap_used_bytes" [cluster] e1
          = Some (HeapUsed (Mem (JVM stats2)))) as Hv1.
  { rewrite Hs1.
    destruct (remap_calls_last a [(id1, stats1)] (id2, stats2) eq_refl)
      as [earlier ->].
    apply (final_value_scalar _ _ _ cluster stats2
             (gauge_set "jvm_mem_heap_used_bytes" [cluster]
                (HeapUsed (Mem (JVM stats2))))); [pick_elem|done..]. }
  assert (series Gauge "jvm_mem_heap_used_bytes" [cluster] e2
          = Some (HeapUsed (Mem (JVM stats1)))) as Hv2.
  { rewrite Hs2.
    destruct (remap_calls_last a' [(id2, stats2)] (id1, stats1) eq_refl)
      as [earlier ->].
    apply (final_value_scalar _ _ _ cluster stats1
             (gauge_set "jvm_mem_heap_used_bytes" [cluster]
                (HeapUsed (Mem (JVM stats1))))); [pick_elem|done..]. }
  eexists _, _. split; [exact H1|]. split; [exact H2|]. simpl.
  split; [exact Hv1|]. split; [exact Hv2|].
  intros Heq. rewrite Heq, Hv2 in Hv1. congruence.
Qed.

Lemma two_nodes_order_decides_witness :
  initialised default_exporter
  ∧ float64_exact (HeapUsed (Mem (JVM (node_stats 1 [] []))))
  ∧ float64_exact (HeapUsed (Mem (JVM (node_stats 2 [] []))))
  ∧ HeapUsed (Mem (JVM (node_stats 1 [] []))) ≠ HeapUsed (Mem (JVM (node_stats 2 [] [])))
  ∧ ∃ o o',
      Collect (Decoded {| ClusterName := "es-test";
                          Nodes := [("node-1", node_stats 1 [] []);
                                    ("node-2", node_stats 2 [] [])] |})
        default_exporter = Some o
      ∧ Collect (Decoded {| ClusterName := "es-test";
                            Nodes := [("node-2", node_stats 2 [] []);
                                      ("node-1", node_stats 1 [] [])] |})
          default_exporter = Some o'
      ∧ series Gauge "jvm_mem_heap_used_bytes" ["es-test"] (exporter o) = Some 2%Z
      ∧ series Gauge "jvm_mem_heap_used_bytes" ["es-test"] (exporter o') = Some 1%Z
      ∧ exporter o ≠ exporter o'.
Proof.
  assert (initialised default_exporter) as Hinit by (repeat split; reflexivity).
  assert (float64_exact (HeapUsed (Mem (JVM (node_stats 1 [] []))))) as Hx1
    by (unfold float64_exact; simpl; lia).
  assert (float64_exact (HeapUsed (Mem (JVM (node_stats 2 [] []))))) as Hx2
    by (unfold float64_exact; simpl; lia).
  assert (HeapUsed (Mem (JVM (node_stats 1 [] [])))
          ≠ HeapUsed (Mem (JVM (node_stats 2 [] [])))) as Hdiff
    by (simpl; lia).
  split; [exact Hinit|]. split; [exact Hx1|]. split; [exact Hx2|].
  split; [exact Hdiff|].
  exact (two_nodes_order_decides default_exporter "es-test" "node-1" "node-2"
           (node_stats 1 [] []) (node_stats 2 [] []) Hinit Hx1 Hx2 Hdiff).
Defined.

(** ** No series is sent twice *)

Lemma NoDup_flat_map {A B} (f : A → list B) (l : list A) :
  NoDup l →
  (∀ x, x ∈ l → NoDup (f x)) →
  (∀ x y z, x ∈ l → y ∈ l → z ∈ f x → z ∈ f y → x = y) →
  NoDup (flat_map f l).
Proof.
  induction 1 as [|x l Hx Hnd IH]; intros Hf Hdisj; simpl; [constructor|].
  apply NoDup_app. split_and!.
  - apply Hf. left.
  - intros z Hz (y & Hy & Hzy)%elem_of_flat_map.
    apply Hx. rewrite (Hdisj x y z); [done|left|by right|done..].
  - apply IH.
    + intros y Hy. apply Hf. by right.
    + intros y y' z Hy Hy'. apply Hdisj; by right.
Qed.

Lemma fmap_flat_map {A B C} (g : B → C) (f : A → list B) (l : list A) :
  g <$> flat_map f l = flat_map (λ x, g <$> f x) l.
Proof.
  induction l as [|x l IH]; simpl; [done|]. by rewrite fmap_app, IH.
Qed.

(** The name and the label values of a metric: what tells one series from
    another. *)
Lemma series_ids_NoDup (tbl : gmap string Vec) :
  (∀ name vec, tbl !! name = Some vec → Name (opts (desc vec)) = name) →
  NoDup ((λ m, (Name (opts (metric_desc m)), labelValues m))
           <$> flat_map (λ entry, Vec_Collect entry.2) (map_to_list tbl)).
Proof.
  intros Hname. rewrite fmap_flat_map. apply NoDup_flat_map.
  - apply NoDup_map_to_list.
  - intros [name vec] _. unfold Vec_Collect. simpl.
    rewrite <- list_fmap_compose.
    apply NoDup_fmap_2_strong; [|apply NoDup_map_to_list].
    intros [lvs v] [lvs' v'] Hin Hin' [= ->].
    apply elem_of_map_to_list in Hin, Hin'. congruence.
  - intros [name vec] [name' vec'] z Hin Hin' Hz Hz'.
    apply elem_of_map_to_list in Hin, Hin'. unfold Vec_Collect in Hz, Hz'.
    simpl in Hz, Hz'. rewrite <- list_fmap_compose in Hz, Hz'.
    apply list_elem_of_fmap in Hz as (c & -> & _).
    apply list_elem_of_fmap in Hz' as (c' & [= Hn _] & _).
    rewrite (Hname _ _ Hin), (Hname _ _ Hin') in Hn. subst name'.
    congruence.
Qed.

Lemma registered_names_apart name :
  is_Some (gauges (NewExporter "" 0) !! name) →
  is_Some (counters (NewExporter "" 0) !! name) → False.
Proof.
  intros [vg Hg] [vc Hc].
  assert (name ∈ (gaugeMetrics.*1 ++ gaugeVecMetrics.*1)%list) as Hing.
  { clear Hc. unfold NewExporter in Hg. cbn [gauges] in Hg. apply elem_of_app.
    apply range_insert_lookup in Hg as [Hg|(a & Hin & _)].
    - apply range_insert_lookup in Hg as [Hg|(a & Hin & _)].
      + rewrite lookup_empty in Hg. discriminate Hg.
      + right. apply list_elem_of_fmap. exists (name, a). split; [reflexivity|exact Hin].
    - left. apply list_elem_of_fmap. exists (name, a). split; [reflexivity|exact Hin]. }
  assert (name ∈ (counterMetrics.*1 ++ counterVecMetrics.*1)%list) as Hinc.
  { clear Hg Hing. unfold NewExporter in Hc. cbn [counters] in Hc. apply elem_of_app.
    apply range_insert_lookup in Hc as [Hc|(a & Hin & _)].
    - apply range_insert_lookup in Hc as [Hc|(a & Hin & _)].
      + rewrite lookup_empty in Hc. discriminate Hc.
      + right. apply list_elem_of_fmap. exists (name, a). split; [reflexivity|exact Hin].
    - left. apply list_elem_of_fmap. exists (name, a). split; [reflexivity|exact Hin]. }
  clear Hg Hc.
  assert (Forall (λ n, n ∉ (counterMetrics.*1 ++ counterVecMetrics.*1)%list)
            (gaugeMetrics.*1 ++ gaugeVecMetrics.*1)%list) as Hapart by table_fact.
  rewrite Forall_forall in Hapart. exact (Hapart name Hing Hinc).
Qed.

(** X14.  No series is sent twice: among the metrics a successful cycle
    sends, no two have the same name and the same label values. *)
Theorem sent_series_distinct (e : Exporter) (allStats : NodeStatsResponse) :
  initialised e →
  ∃ o,
    Collect (Decoded allStats) e = Some o
    ∧ NoDup ((λ m, (Name (opts (metric_desc m)), labelValues m)) <$> sent o).
Proof.
  intros Hinit.
  destruct (Collect_Decoded allStats e Hinit) as (e' & _ & H & Hok & Hup & _).
  eexists. split; [exact H|]. cbn [sent]. unfold report.
  assert (∀ k name vec, table_of k e' !! name = Some vec →
            Name (opts (desc vec)) = name
            ∧ is_Some (table_of k (NewExporter "" 0) !! name)) as Hname.
  { intros k name vec Hvec.
    destruct (schema_ok_registered e' k name vec Hok Hvec)
      as (_ & _ & vec0 & Hvec0 & Hdesc).
    split; [|by eexists].
    apply NewExporter_opts in Hvec0 as [Hn _]. by rewrite <- Hdesc. }
  rewrite fmap_cons, fmap_app. apply NoDup_cons. split.
  - simpl. rewrite Hup. simpl. destruct Hinit as (_ & _ & ->). simpl.
    rewrite <- fmap_app. intros (m & [= Hn _] & Hm)%list_elem_of_fmap.
    apply elem_of_report_tail in Hm as (k & name & vec & lvs & v & Hvec & _ & ->).
    simpl in Hn. destruct (Hname k name vec Hvec) as [Hn' [vec0 Hvec0]].
    rewrite Hn' in Hn. subst name. revert Hvec0. clear.
    destruct k; vm_compute; discriminate.
  - apply NoDup_app. split_and!.
    + apply series_ids_NoDup. intros name vec Hvec.
      by destruct (Hname Counter name vec Hvec).
    + intros id (m & -> & Hm)%list_elem_of_fmap (m' & [= Hn _] & Hm')%list_elem_of_fmap.
      apply elem_of_collect_table in Hm as (name & vec & ? & ? & Hvec & _ & ->).
      apply elem_of_collect_table in Hm' as (name' & vec' & ? & ? & Hvec' & _ & ->).
      simpl in Hn.
      destruct (Hname Counter name vec Hvec) as [Hn1 Hc].
      destruct (Hname Gauge name' vec' Hvec') as [Hn2 Hg].
      rewrite Hn1, Hn2 in Hn. subst name'.
      by apply (registered_names_apart name).
    + apply series_ids_NoDup. intros name vec Hvec.
      by destruct (Hname Gauge name vec Hvec).
Qed.

Lemma sent_series_distinct_witness :
  initialised default_exporter
  ∧ ∃ o,
      Collect (Decoded two_nodes) default_exporter = Some o
      ∧ NoDup ((λ m, (Name (opts (metric_desc m)), labelValues m)) <$> sent o).
Proof.
  assert (initialised default_exporter) as Hinit by (repeat split; reflexivity).
  split; [exact Hinit|].
  exact (sent_series_distinct default_exporter two_nodes Hinit).
Defined.

(** ** Two cycles on the same payload *)








